(** * PALADIN: the Evidence Graph Language and its verifier

    A shallow embedding of the evidence-graph schema ([egl/schema.py]), the
    graph compiler ([egl/compiler.py]), the verifier modules
    ([verifier/truthlens_adapter.py], [verifier/hashcheck.py],
    [verifier/numeric_time_check.py], [verifier/minimality.py],
    [verifier/nli_check.py]), the span extractor ([retriever/spans.py]),
    the planner ([model/planner.py]) and the verification orchestrator
    ([model/runner.py]), followed by the properties of the specification
    stated and settled over that embedding.

    Conventions.
    - A Python [str] is a [string]; each [ascii] is one code point in
      U+0000..U+00FF.  Case mapping, whitespace and UTF-8 encoding are given
      for that whole range, as CPython defines them.
    - A [dict] used as a lookup table is a [gmap]; a [list] is a [list].
    - A Python exception is a constructor of [exn]; a function that may
      raise returns [res A].  [OutOfFuel] is not a Python exception: it is
      what a loop of the model answers when its iteration budget is spent,
      and the traversal is proved never to answer it.
    - The interpreter is CPython 3.8 or later: every literal parses to an
      [ast.Constant]. *)

From stdpp Require Import gmap strings list fin_maps sorting pretty.
From Stdlib Require Import ZArith Ascii String.

(** ** Exceptions *)

Inductive exn : Type :=
| KeyError (key : string)
| TypeError
| ValueError (msg : string)
| SyntaxError
| ZeroDivisionError
| OverflowError
| OutOfFuel.

Inductive res (A : Type) : Type :=
| Ok (a : A)
| Raise (e : exn).
Arguments Ok {A} a.
Arguments Raise {A} e.

#[global] Instance res_ret : MRet res := @Ok.
#[global] Instance res_bind : MBind res := λ A B k r,
  match r with
  | Ok a => k a
  | Raise e => Raise e
  end.

(** ** Python string primitives *)

Module Text.
Local Open Scope string_scope.

Definition code (c : ascii) : N := N_of_ascii c.

(** [str.isspace] on one code point below U+0100. *)
Definition is_space (c : ascii) : bool :=
  let n := code c in
  ((9 <=? n) && (n <=? 13) || (28 <=? n) && (n <=? 32)
   || (n =? 133) || (n =? 160))%N.

(** [str.lower] on one code point below U+0100: A-Z and the Latin-1
    capitals U+00C0..U+00DE (U+00D7, the multiplication sign, apart). *)
Definition lower_char (c : ascii) : ascii :=
  let n := code c in
  if ((65 <=? n) && (n <=? 90)
      || (192 <=? n) && (n <=? 222) && negb (n =? 215))%N
  then ascii_of_N (n + 32) else c.

Fixpoint lower (s : string) : string :=
  match s with
  | EmptyString => EmptyString
  | String c s' => String (lower_char c) (lower s')
  end.

(** [s.split()]: the maximal runs of non-whitespace, left to right.
    [cur] is the run being read. *)
Fixpoint split_from (cur s : string) : list string :=
  match s with
  | EmptyString => if bool_decide (cur = "") then [] else [cur]
  | String c s' =>
      if is_space c
      then (if bool_decide (cur = "") then split_from "" s'
            else cur :: split_from "" s')
      else split_from (cur ++ String c "") s'
  end.

Definition split (s : string) : list string := split_from "" s.

(** [sub in s] *)
Fixpoint contains (sub s : string) : bool :=
  String.prefix sub s ||
  match s with
  | EmptyString => false
  | String _ s' => contains sub s'
  end.

(** [x in l] for a list of strings *)
Definition mem (x : string) (l : list string) : bool :=
  existsb (String.eqb x) l.

(** What [sub in s] means. *)
Definition Substring (sub s : string) : Prop :=
  ∃ pre post, s = pre ++ sub ++ post.

End Text.

(** ** verifier/truthlens_adapter.py *)

Module TruthLens.
Local Open Scope string_scope.
Import Text.

Definition _tokenize (text : string) : list string :=
  map lower (List.filter (λ t, negb (String.eqb t "")) (split text)).

Definition negations : list string := ["not"; "no"; "never"].

(** matches = sum(1 for t in h_tokens if t in p_tokens) *)
Definition matches (p_tokens h_tokens : list string) : nat :=
  List.length (List.filter (λ t, mem t p_tokens) h_tokens).

(** The ratio [matches / len(h_tokens)] is a binary64 quotient of two
    machine-sized naturals.  0.5 is a binary64 number and rounding is
    monotone, so for fewer than 2^53 tokens [ratio >= 0.5] is decided by
    [len <= 2 * matches]; the second test, [ratio <= 0.1], selects between
    two branches that return the same string. *)
Definition get_support_level (premise hypothesis : string) : string :=
  let p_tokens := _tokenize premise in
  let h_tokens := _tokenize hypothesis in
  match h_tokens with
  | [] => "unverifiable"
  | _ =>
      if existsb (λ neg,
           existsb (λ tok, contains (neg ++ " " ++ tok) (lower premise))
                   h_tokens) negations
      then "contradicted"
      else
        let m := matches p_tokens h_tokens in
        if (List.length h_tokens <=? 2 * m)%nat then "supported"
        else if (10 * m <=? List.length h_tokens)%nat then "unverifiable"
        else "unverifiable"
  end.

End TruthLens.

(** ** SHA-256 (FIPS 180-4), as [hashlib.sha256] computes it

    32-bit words are integers with the wrap-around written out. *)

Module Sha256.
Local Open Scope Z_scope.

Definition mask32 (x : Z) : Z := Z.land x 4294967295.
Definition add32 (x y : Z) : Z := mask32 (x + y).
Definition rotr (n x : Z) : Z :=
  mask32 (Z.lor (Z.shiftr x n) (Z.shiftl x (32 - n))).
Definition not32 (x : Z) : Z := Z.lxor x 4294967295.

Definition Ch (x y z : Z) : Z := Z.lxor (Z.land x y) (Z.land (not32 x) z).
Definition Maj (x y z : Z) : Z :=
  Z.lxor (Z.lxor (Z.land x y) (Z.land x z)) (Z.land y z).
Definition Sigma0 (x : Z) : Z := Z.lxor (Z.lxor (rotr 2 x) (rotr 13 x)) (rotr 22 x).
Definition Sigma1 (x : Z) : Z := Z.lxor (Z.lxor (rotr 6 x) (rotr 11 x)) (rotr 25 x).
Definition sigma0 (x : Z) : Z := Z.lxor (Z.lxor (rotr 7 x) (rotr 18 x)) (Z.shiftr x 3).
Definition sigma1 (x : Z) : Z := Z.lxor (Z.lxor (rotr 17 x) (rotr 19 x)) (Z.shiftr x 10).

(** The round constants and the initial hash value are defined, as in
    FIPS 180-4, from the first primes: the first 32 bits of the fractional
    parts of their cube roots, respectively of the square roots of the first
    eight. *)
Definition is_prime (n : nat) : bool :=
  forallb (λ d, negb (n mod d =? 0)%nat) (seq 2 (n - 2)).

Definition primes : list Z :=
  map Z.of_nat (List.filter is_prime (seq 2 310)).

(** Integer cube root below 2^36, one bit at a time from the top. *)
Definition icbrt (n : Z) : Z :=
  fold_left (λ r b, let r' := r + Z.shiftl 1 (Z.of_nat b) in
                    if r' * r' * r' <=? n then r' else r)
            (rev (seq 0 36)) 0.

Definition K : list Z :=
  map (λ p, mask32 (icbrt (Z.shiftl p 96))) primes.

Definition H0 : list Z :=
  map (λ p, mask32 (Z.sqrt (Z.shiftl p 64))) (firstn 8 primes).

(** Message padding: 0x80, zero bytes up to 56 modulo 64, then the bit
    length on eight bytes, most significant first. *)
Definition be_bytes (n : nat) (x : Z) : list Z :=
  map (λ i, Z.land (Z.shiftr x (8 * Z.of_nat i)) 255) (rev (seq 0 n)).

Definition pad (msg : list Z) : list Z :=
  let len := Z.of_nat (List.length msg) in
  let zeros := Z.to_nat ((55 - len) mod 64) in
  msg ++ 128 :: repeat 0 zeros ++ be_bytes 8 (8 * len).

Fixpoint words (n : nat) (bs : list Z) : list Z :=
  match n, bs with
  | S n', b0 :: b1 :: b2 :: b3 :: rest =>
      (Z.shiftl b0 24 + Z.shiftl b1 16 + Z.shiftl b2 8 + b3) :: words n' rest
  | _, _ => []
  end.

(** The message schedule, newest word first. *)
Fixpoint schedule (n : nat) (w : list Z) : list Z :=
  match n with
  | O => w
  | S n' =>
      match w with
      | _ :: w2 :: _ :: _ :: _ :: _ :: w7 :: _ :: _ :: _ :: _ :: _ :: _ :: _ :: w15 :: w16 :: _ =>
          schedule n' (add32 (add32 (sigma1 w2) w7) (add32 (sigma0 w15) w16) :: w)
      | _ => w
      end
  end.

Definition round (st : list Z) (kw : Z * Z) : list Z :=
  match st with
  | [a; b; c; d; e; f; g; h] =>
      let t1 := add32 (add32 (add32 h (Sigma1 e)) (add32 (Ch e f g) kw.1)) kw.2 in
      let t2 := add32 (Sigma0 a) (Maj a b c) in
      [add32 t1 t2; a; b; c; add32 d t1; e; f; g]
  | _ => st
  end.

Definition compress (h : list Z) (block : list Z) : list Z :=
  let w := rev (schedule 48 (rev (words 16 block))) in
  let st := fold_left round (combine K w) h in
  map (λ p : Z * Z, add32 p.1 p.2) (combine h st).

Fixpoint blocks (n : nat) (h : list Z) (bs : list Z) : list Z :=
  match n with
  | O => h
  | S n' =>
      match bs with
      | [] => h
      | _ => blocks n' (compress h (firstn 64 bs)) (skipn 64 bs)
      end
  end.

Definition digest (msg : list Z) : list Z :=
  let p := pad msg in
  flat_map (be_bytes 4) (blocks (List.length p) H0 p).

Definition hex_digit (x : Z) : ascii :=
  if x <? 10 then ascii_of_N (Z.to_N (48 + x)) else ascii_of_N (Z.to_N (87 + x)).

Definition hex (bs : list Z) : string :=
  string_of_list_ascii
    (flat_map (λ b, [hex_digit (Z.shiftr b 4); hex_digit (Z.land b 15)]) bs).

(** [s.encode("utf-8")] for code points below U+0100. *)
Definition utf8 (s : string) : list Z :=
  flat_map (λ c, let n := Z.of_N (N_of_ascii c) in
                 if n <? 128 then [n]
                 else [192 + Z.shiftr n 6; 128 + Z.land n 63])
           (list_ascii_of_string s).

(** [hashlib.sha256(s.encode("utf-8")).hexdigest()] *)
Definition sha256_hex (s : string) : string := hex (digest (utf8 s)).
End Sha256.

(** ** egl/schema.py *)

Module Node.
Record t : Type := mk {
  id : string;
  type : string;
  text : option string;
  url : option string;
  span : option string;
  hash : option string;
  code : option string;
  result : option string;
  premise : option string;
  hypothesis : option string;
  lang : option string
}.
End Node.

Module Edge.
Record t : Type := mk {
  source : string;
  target : string;
  type : string
}.
End Edge.

#[global] Instance node_eq_dec : EqDecision Node.t.
Proof. solve_decision. Defined.
#[global] Instance edge_eq_dec : EqDecision Edge.t.
Proof. solve_decision. Defined.

Module Schema.
Local Open Scope string_scope.

Definition NODE_TYPES : list string := ["claim"; "evidence"; "calc"; "entailment"].
Definition EDGE_TYPES : list string :=
  ["supports"; "refutes"; "derives"; "uses-tool"; "cites"].

(** [Node(...)] and [Edge(...)]: the dataclass constructor followed by
    [__post_init__]. *)
Definition Node_init (n : Node.t) : res Node.t :=
  if bool_decide (Node.type n ∈ NODE_TYPES) then Ok n
  else Raise (ValueError ("Unknown node type " ++ Node.type n)).

Definition Edge_init (e : Edge.t) : res Edge.t :=
  if bool_decide (Edge.type e ∈ EDGE_TYPES) then Ok e
  else Raise (ValueError ("Unknown edge type " ++ Edge.type e)).

Record EvidenceGraph : Type := mkGraph {
  nodes : list Node.t;
  edges : list Edge.t
}.

(** {n.id: n for n in self.nodes}: a later node replaces an earlier one
    with the same id. *)
Definition node_map (g : EvidenceGraph) : gmap string Node.t :=
  foldl (λ m n, <[Node.id n := n]> m) ∅ (nodes g).

Definition get_node (g : EvidenceGraph) (node_id : string) : option Node.t :=
  node_map g !! node_id.

Definition outgoing (g : EvidenceGraph) (node_id : string) : list Edge.t :=
  filter (λ e, Edge.source e = node_id) (edges g).

Definition incoming (g : EvidenceGraph) (node_id : string) : list Edge.t :=
  filter (λ e, Edge.target e = node_id) (edges g).

Definition claims (g : EvidenceGraph) : list Node.t :=
  filter (λ n, Node.type n = "claim") (nodes g).

Definition evidence_nodes (g : EvidenceGraph) : list Node.t :=
  filter (λ n, Node.type n = "evidence") (nodes g).

Definition is_final_claim (g : EvidenceGraph) (node : Node.t) : bool :=
  forallb (λ e, bool_decide (Edge.type e ≠ "derives")) (incoming g (Node.id node)).

Definition final_claims (g : EvidenceGraph) : list Node.t :=
  filter (λ c, is_final_claim g c = true) (claims g).

Definition seed_types : list string := ["evidence"; "calc"; "entailment"].
Definition followed : list string := ["supports"; "derives"; "cites"; "uses-tool"].

(** The body of [for edge in self.outgoing(current)]: a followed edge
    whose target is not yet marked is marked and pushed.  [reachable[k]] on
    an absent key raises [KeyError].  The stack is kept top first. *)
Fixpoint visit (out : list Edge.t) (reachable : gmap string bool)
    (stack : list string) : res (gmap string bool * list string) :=
  match out with
  | [] => Ok (reachable, stack)
  | edge :: rest =>
      if bool_decide (Edge.type edge ∈ followed) then
        match reachable !! Edge.target edge with
        | None => Raise (KeyError (Edge.target edge))
        | Some true => visit rest reachable stack
        | Some false =>
            visit rest (<[Edge.target edge := true]> reachable)
                  (Edge.target edge :: stack)
        end
      else visit rest reachable stack
  end.

(** [while stack: current = stack.pop(); ...].  [fuel] bounds the number
    of iterations. *)
Fixpoint search (fuel : nat) (g : EvidenceGraph)
    (reachable : gmap string bool) (stack : list string)
    : res (gmap string bool) :=
  match stack with
  | [] => Ok reachable
  | current :: stack' =>
      match fuel with
      | O => Raise OutOfFuel
      | S fuel' =>
          '(reachable', stack'') ← visit (outgoing g current) reachable stack';
          search fuel' g reachable' stack''
      end
  end.

Definition seeds (g : EvidenceGraph) : list string :=
  map Node.id (filter (λ n, Node.type n ∈ seed_types) (nodes g)).

Definition reachable_from_evidence (g : EvidenceGraph) : res (gmap string bool) :=
  let reachable := foldl (λ m n, <[Node.id n := false]> m) ∅ (nodes g) in
  let stack := seeds g in
  let reachable := foldl (λ m nid, <[nid := true]> m) reachable stack in
  search (2 * List.length (nodes g)) g reachable (reverse stack).

Definition validate_connectivity (g : EvidenceGraph) : res bool :=
  reachable ← reachable_from_evidence g;
  Ok (forallb (λ claim, default false (reachable !! Node.id claim))
              (final_claims g)).

(** [n.__dict__] and [e.__dict__]: the fields in declaration order. *)
Definition node_dict (n : Node.t) : list (string * option string) :=
  [ ("id", Some (Node.id n)); ("type", Some (Node.type n));
    ("text", Node.text n); ("url", Node.url n); ("span", Node.span n);
    ("hash", Node.hash n); ("code", Node.code n); ("result", Node.result n);
    ("premise", Node.premise n); ("hypothesis", Node.hypothesis n);
    ("lang", Node.lang n) ].

Definition edge_dict (e : Edge.t) : list (string * string) :=
  [ ("source", Edge.source e); ("target", Edge.target e); ("type", Edge.type e) ].

Definition to_dict (g : EvidenceGraph)
    : list (list (string * option string)) * list (list (string * string)) :=
  (map node_dict (nodes g), map edge_dict (edges g)).

Definition node_ids (g : EvidenceGraph) : gset string :=
  list_to_set (map Node.id (nodes g)).

Definition edge_errors (ids : gset string) (edge : Edge.t) : list string :=
  let src_error := "Edge source " ++ Edge.source edge ++ " does not exist" in
  let tgt_error := "Edge target " ++ Edge.target edge ++ " does not exist" in
  ((if bool_decide (Edge.source edge ∉ ids) then [src_error] else []) ++
   (if bool_decide (Edge.target edge ∉ ids) then [tgt_error] else []))%list.

Definition validate_graph (g : EvidenceGraph) : res (list string) :=
  let ids := node_ids g in
  let errors :=
    if bool_decide (size ids ≠ List.length (nodes g))
    then ["Duplicate node identifiers found"] else [] in
  let errors := (errors ++ flat_map (edge_errors ids) (edges g))%list in
  validate_connectivity g ≫= λ connected : bool,
  Ok (if connected then errors
      else (errors ++ ["Final claims are not reachable from evidence or calc nodes"])%list).

End Schema.


(** ** egl/compiler.py *)

Module Compiler.
Local Open Scope string_scope.
Import Schema.

(** A raw record is a dictionary from keys to strings.  For the optional
    fields a key whose value is JSON [null] is the same to the dataclass as
    an absent key, and is modelled as absent. *)
Abbreviation record := (gmap string string).

(** [raw]: the value under "nodes" and the value under "edges", when
    present. *)
Record Raw : Type := mkRaw {
  nodes_data : option (list record);
  edges_data : option (list record)
}.

Definition NODE_FIELDS : list string :=
  ["id"; "type"; "text"; "url"; "span"; "hash"; "code"; "result";
   "premise"; "hypothesis"; "lang"].
Definition EDGE_FIELDS : list string := ["source"; "target"; "type"].

(** {k: v for k, v in d.items() if k in fields} *)
Definition keep (fields : list string) (d : record) : record :=
  filter (λ kv, kv.1 ∈ fields) d.

(** [Node] called with a dictionary of keyword arguments: an unexpected
    keyword or a missing [id] or [type] is a [TypeError]; then
    [__post_init__] runs. *)
Definition Node_of_kwargs (kw : record) : res Node.t :=
  if bool_decide (map_Forall (λ k _, k ∈ NODE_FIELDS) kw) then
    match kw !! "id", kw !! "type" with
    | Some i, Some t =>
        Node_init (Node.mk i t (kw !! "text") (kw !! "url") (kw !! "span")
                           (kw !! "hash") (kw !! "code") (kw !! "result")
                           (kw !! "premise") (kw !! "hypothesis") (kw !! "lang"))
    | _, _ => Raise TypeError
    end
  else Raise TypeError.

Definition Edge_of_kwargs (kw : record) : res Edge.t :=
  if bool_decide (map_Forall (λ k _, k ∈ EDGE_FIELDS) kw) then
    match kw !! "source", kw !! "target", kw !! "type" with
    | Some s, Some t, Some ty => Edge_init (Edge.mk s t ty)
    | _, _, _ => Raise TypeError
    end
  else Raise TypeError.

(** [for x in xs: out.append(f(x))], stopping at the first exception. *)
Fixpoint build {A B} (f : A → res B) (xs : list A) : res (list B) :=
  match xs with
  | [] => Ok []
  | x :: xs' => y ← f x; ys ← build f xs'; Ok (y :: ys)
  end.

(** [list.sort(key=...)] is a stable sort that compares keys with [<]
    only.  The result of a stable sort is determined by its input; it is
    computed here by insertion from the right. *)
Section sort.
Context {A K : Type} (key : A → K) (lt : K → K → bool).

Fixpoint insert_sorted (x : A) (l : list A) : list A :=
  match l with
  | [] => [x]
  | y :: l' => if lt (key y) (key x) then y :: insert_sorted x l'
               else x :: y :: l'
  end.

Definition sort_by (l : list A) : list A := foldr insert_sorted [] l.
End sort.

(** [<] on tuples of three strings: the first differing component
    decides. *)
Definition tuple_ltb (a b : string * string * string) : bool :=
  let '(a1, a2, a3) := a in
  let '(b1, b2, b3) := b in
  if bool_decide (a1 ≠ b1) then String.ltb a1 b1
  else if bool_decide (a2 ≠ b2) then String.ltb a2 b2
  else String.ltb a3 b3.

Definition edge_key (e : Edge.t) : string * string * string :=
  (Edge.source e, Edge.target e, Edge.type e).

(** "; ".join(errors) *)
Fixpoint join (sep : string) (l : list string) : string :=
  match l with
  | [] => ""
  | [x] => x
  | x :: l' => x ++ sep ++ join sep l'
  end.

Definition compile_graph (raw : Raw) : res EvidenceGraph :=
  let nodes_data := default [] (nodes_data raw) in
  let edges_data := default [] (edges_data raw) in
  nodes ← build (λ nd, Node_of_kwargs (keep NODE_FIELDS nd)) nodes_data;
  edges ← build (λ ed, Edge_of_kwargs (keep EDGE_FIELDS ed)) edges_data;
  let nodes := sort_by Node.id String.ltb nodes in
  let edges := sort_by edge_key tuple_ltb edges in
  let graph := mkGraph nodes edges in
  errors ← validate_graph graph;
  match errors with
  | [] => Ok graph
  | _ => Raise (ValueError ("Invalid evidence graph: " ++ join "; " errors))
  end.

End Compiler.

(** ** verifier/hashcheck.py *)

Module HashCheck.
Local Open Scope string_scope.
Import Schema.

Definition _sha256_hex (s : string) : string := Sha256.sha256_hex s.

(** What one iteration of the loop over [graph.nodes] appends to
    [problems]. *)
Definition node_problems (node : Node.t) : list string :=
  if bool_decide (Node.type node ≠ "evidence") then []
  else
    let span := default "" (Node.span node) in
    let h := default "" (Node.hash node) in
    if bool_decide (span = "") then ["evidence " ++ Node.id node ++ " missing span"]
    else if bool_decide (h = "") then ["evidence " ++ Node.id node ++ " missing hash"]
    else
      let actual := _sha256_hex span in
      if bool_decide (actual ≠ h) then ["hash mismatch for " ++ Node.id node]
      else [].

Definition check_source_binding (g : EvidenceGraph) : bool * list string :=
  let problems := flat_map node_problems (nodes g) in
  (bool_decide (List.length problems = 0), problems).

End HashCheck.

(** ** verifier/minimality.py *)

Module Minimality.
Local Open Scope string_scope.
Import Schema.

(** [[e for e in graph.edges if e is not edge_to_remove]].  The test is
    object identity and every entry of the edge list is an object of its
    own, so the edge to remove is named by its position. *)
Definition _graph_without_edge (g : EvidenceGraph) (i : nat) : EvidenceGraph :=
  mkGraph (nodes g) (delete i (edges g)).

(** One iteration of the loop of [_supports_valid]: [false] is the early
    [return False], [true] lets the loop go on. *)
Definition edge_holds (g : EvidenceGraph) (edge : Edge.t) : bool :=
  if bool_decide (Edge.type edge ≠ "supports") then true
  else
    match get_node g (Edge.source edge), get_node g (Edge.target edge) with
    | Some src, Some tgt =>
        if bool_decide (Node.type src ≠ "evidence" ∨ Node.type tgt ≠ "claim")
        then true
        else
          let level := TruthLens.get_support_level
                         (default "" (Node.span src)) (default "" (Node.text tgt)) in
          bool_decide (level = "supported")
    | _, _ => false
    end.

Definition _supports_valid (g : EvidenceGraph) : bool :=
  forallb (edge_holds g) (edges g).

Definition describe (edge : Edge.t) : string :=
  Edge.source edge ++ "->" ++ Edge.target edge.

(** The loop of [check_minimality] from position [i] on; [es] is the
    rest of the edge list. *)
Fixpoint removable_from (g : EvidenceGraph) (i : nat) (es : list Edge.t)
    : res (list string) :=
  match es with
  | [] => Ok []
  | edge :: rest =>
      let temp_graph := _graph_without_edge g i in
      connected ← validate_connectivity temp_graph;
      rest' ← removable_from g (S i) rest;
      Ok (if connected && _supports_valid temp_graph
          then describe edge :: rest' else rest')
  end.

Definition check_minimality (g : EvidenceGraph) : res (bool * list string) :=
  match edges g with
  | [] => Ok (false, [])
  | _ =>
      removable ← removable_from g 0 (edges g);
      Ok (bool_decide (List.length removable = 0), removable)
  end.

End Minimality.

(** ** verifier/numeric_time_check.py *)

Module Numeric.
Local Open Scope string_scope.

(** The interpreter's binary64 arithmetic, taken as an interface: the
    checker only calls it. *)
Class PyFloat (F : Type) : Type := {
  f_of_int : Z → res F;
  f_neg : F → F;
  f_add : F → F → F;
  f_sub : F → F → F;
  f_mul : F → F → F;
  f_truediv : F → F → res F;
  f_floordiv : F → F → res F;
  f_mod : F → F → res F;
  int_truediv : Z → Z → res F;
  f_str : F → string
}.

(** The node classes of Python's [ast] module that an expression can be
    made of.  [OtherExpr] stands for every expression class not listed. *)
Inductive unaryop : Type := UAdd | USub | Not | Invert.

Inductive operator : Type :=
| Add | Sub | Mult | MatMult | Div | Mod | Pow | LShift | RShift
| BitOr | BitXor | BitAnd | FloorDiv.

Section interpreter.
Context {F : Type} `{PyFloat F}.

(** The values a literal can denote in the model: [int], [bool],
    [float], [str] and [None]. *)
Inductive value : Type :=
| VInt (z : Z)
| VBool (b : bool)
| VFloat (x : F)
| VStr (s : string)
| VNone.

#[local] Unset Elimination Schemes.
Inductive expr : Type :=
| Constant (v : value)
| UnaryOp (op : unaryop) (operand : expr)
| BinOp (left : expr) (op : operator) (right : expr)
| Name (id : string)
| Call (func : expr) (args : list expr)
| Attribute (obj : expr) (attr : string)
| Compare (left : expr) (comparators : list expr)
| OtherExpr.
#[local] Set Elimination Schemes.

Inductive tree : Type := Expression (body : expr).

(** [ast.parse(code, mode="eval")] and printf-style [str % value] belong
    to the interpreter. *)
Context (ast_parse : string → res tree).
Context (str_format : string → value → res string).

Inductive number : Type := NInt (z : Z) | NFloat (x : F).

Definition as_number (v : value) : option number :=
  match v with
  | VInt z => Some (NInt z)
  | VBool b => Some (NInt (Z.b2z b))
  | VFloat x => Some (NFloat x)
  | _ => None
  end.

Definition to_float (n : number) : res F :=
  match n with
  | NInt z => f_of_int z
  | NFloat x => Ok x
  end.

(** A numeric operator: exact on two integers, binary64 as soon as one
    operand is a float. *)
Definition arith (on_int : Z → Z → res value) (on_float : F → F → res F)
    (a b : value) : res value :=
  match as_number a, as_number b with
  | Some (NInt x), Some (NInt y) => on_int x y
  | Some x, Some y =>
      fx ← to_float x; fy ← to_float y; r ← on_float fx fy; Ok (VFloat r)
  | _, _ => Raise TypeError
  end.

Fixpoint repeat_string (n : nat) (s : string) : string :=
  match n with
  | O => ""
  | S n' => s ++ repeat_string n' s
  end.

Definition op_add (a b : value) : res value :=
  match a, b with
  | VStr s1, VStr s2 => Ok (VStr (s1 ++ s2))
  | _, _ => arith (λ x y, Ok (VInt (x + y))) (λ x y, Ok (f_add x y)) a b
  end.

Definition op_sub : value → value → res value :=
  arith (λ x y, Ok (VInt (x - y))) (λ x y, Ok (f_sub x y)).

Definition op_mul (a b : value) : res value :=
  match a, as_number a, b, as_number b with
  | VStr s, _, _, Some (NInt n) => Ok (VStr (repeat_string (Z.to_nat n) s))
  | _, Some (NInt n), VStr s, _ => Ok (VStr (repeat_string (Z.to_nat n) s))
  | _, _, _, _ => arith (λ x y, Ok (VInt (x * y))) (λ x y, Ok (f_mul x y)) a b
  end.

Definition op_truediv : value → value → res value :=
  arith (λ x y, if (y =? 0)%Z then Raise ZeroDivisionError
                else r ← int_truediv x y; Ok (VFloat r))
        f_truediv.

Definition op_floordiv : value → value → res value :=
  arith (λ x y, if (y =? 0)%Z then Raise ZeroDivisionError
                else Ok (VInt (x `div` y)))
        f_floordiv.

Definition op_mod (a b : value) : res value :=
  match a with
  | VStr s => r ← str_format s b; Ok (VStr r)
  | _ => arith (λ x y, if (y =? 0)%Z then Raise ZeroDivisionError
                       else Ok (VInt (x `mod` y)))
               f_mod a b
  end.

(** [-x] *)
Definition neg (v : value) : res value :=
  match as_number v with
  | Some (NInt z) => Ok (VInt (- z))
  | Some (NFloat x) => Ok (VFloat (f_neg x))
  | None => Raise TypeError
  end.

(** [str(x)] *)
Definition str (v : value) : string :=
  match v with
  | VInt z => pretty z
  | VBool true => "True"
  | VBool false => "False"
  | VFloat x => f_str x
  | VStr s => s
  | VNone => "None"
  end.

(** The table [_OPS]. *)
Definition _OPS (op : operator) : option (value → value → res value) :=
  match op with
  | Add => Some op_add
  | Sub => Some op_sub
  | Mult => Some op_mul
  | Div => Some op_truediv
  | FloorDiv => Some op_floordiv
  | Mod => Some op_mod
  | _ => None
  end.

(** [_eval_node] below the [Expression] root.  Of the classes in
    [_ALLOWED_NODES], [Constant], [UnaryOp] and [BinOp] are the classes of
    expression nodes; the operator of a [UnaryOp] is not looked at. *)
Fixpoint eval_expr (node : expr) : res value :=
  match node with
  | Constant v => Ok v
  | UnaryOp _ operand => v ← eval_expr operand; neg v
  | BinOp l op r =>
      left ← eval_expr l;
      right ← eval_expr r;
      match _OPS op with
      | None => Raise (ValueError "Unsupported operator")
      | Some f => f left right
      end
  | _ => Raise (ValueError "Disallowed AST node")
  end.

Definition _eval_node (node : tree) : res value :=
  match node with
  | Expression body => eval_expr body
  end.

(** The body of the [try] from the point where [ast.parse] has returned
    a tree or raised; [except Exception] turns every exception into
    [False]. *)
Definition check_parsed (parsed : res tree) (expected : string) : bool :=
  match expr_ast ← parsed; _eval_node expr_ast with
  | Ok result => bool_decide (str result = expected)
  | Raise _ => false
  end.

Definition check_numeric_calc (code expected : string) : bool :=
  check_parsed (ast_parse code) expected.

End interpreter.
End Numeric.

(** ** model/runner.py *)

Module Runner.
Local Open Scope string_scope.
Import Schema.

Record Details : Type := mkDetails {
  hash : bool * list string;
  entailment : bool * list string;
  minimality : bool * list string;
  numeric : bool * list string
}.

Section verify.
Context {F : Type} `{Numeric.PyFloat F}.
Context (ast_parse : string → res (Numeric.tree (F:=F))).
Context (str_format : string → Numeric.value (F:=F) → res string).

(** What one edge adds to [entail_results]. *)
Definition edge_levels (g : EvidenceGraph) (edge : Edge.t) : list string :=
  if bool_decide (Edge.type edge = "supports") then
    match get_node g (Edge.source edge), get_node g (Edge.target edge) with
    | Some src, Some tgt =>
        if bool_decide (Node.type src = "evidence" ∧ Node.type tgt = "claim")
        then [TruthLens.get_support_level
                (default "" (Node.span src)) (default "" (Node.text tgt))]
        else []
    | _, _ => []
    end
  else [].

(** What one node adds to [numeric_problems]. *)
Definition node_numeric (node : Node.t) : list string :=
  if bool_decide (Node.type node = "calc") then
    match Node.code node, Node.result node with
    | Some code, Some result =>
        if Numeric.check_numeric_calc ast_parse str_format code result
        then [] else [Node.id node]
    | _, _ => []
    end
  else [].

Definition _verify (g : EvidenceGraph) : res (bool * Details) :=
  let '(ok_hash, problems) := HashCheck.check_source_binding g in
  let entail_results := flat_map (edge_levels g) (edges g) in
  let support_ok :=
    forallb (λ level, bool_decide (level = "supported")) entail_results in
  '(is_min, removable) ← Minimality.check_minimality g;
  let numeric_problems := flat_map node_numeric (nodes g) in
  let numeric_ok := bool_decide (numeric_problems = []) in
  let valid := ok_hash && support_ok && is_min && numeric_ok in
  Ok (valid,
      mkDetails (ok_hash, problems) (support_ok, entail_results)
                (is_min, removable) (numeric_ok, numeric_problems)).

End verify.
End Runner.

(** ** verifier/nli_check.py *)

Module NliCheck.
Local Open Scope string_scope.
Import Text.

Definition _tokenize (text : string) : list string :=
  map lower (List.filter (λ t, negb (String.eqb t "")) (split text)).

(** [check_entailment(premise, hypothesis)] at the default threshold 0.5.
    The quotient [matches / len(hypo_tokens)] is binary64; against 0.5 and
    for fewer than 2^53 tokens the test is [len <= 2 * matches]. *)
Definition check_entailment (premise hypothesis : string) : bool :=
  let premise_tokens : gset string := list_to_set (_tokenize premise) in
  let hypo_tokens := _tokenize hypothesis in
  match hypo_tokens with
  | [] => false
  | _ =>
      let matches :=
        List.length (filter (λ t, t ∈ premise_tokens) hypo_tokens) in
      (List.length hypo_tokens <=? 2 * matches)%nat
  end.

End NliCheck.

(** ** retriever/spans.py *)

Module Spans.
Local Open Scope string_scope.
Import Text.

Definition _tokenize_words (text : string) : list string :=
  List.filter (λ w, negb (String.eqb w "")) (split text).

(** [l.index(x)] for an [x] that occurs in [l]. *)
Fixpoint index (x : string) (l : list string) : option nat :=
  match l with
  | [] => None
  | y :: l' => if String.eqb y x then Some 0%nat else S <$> index x l'
  end.

(** The loop over [q_words]: the position of the first query word that is
    a word of the document, or -1. *)
Fixpoint first_hit (q_words lower_words : list string) : Z :=
  match q_words with
  | [] => (-1)%Z
  | qi :: rest =>
      if mem qi lower_words
      then match index qi lower_words with
           | Some i => Z.of_nat i
           | None => (-1)%Z
           end
      else first_hit rest lower_words
  end.

(** A bound of a slice brought into [0, len]: a negative bound counts
    from the end. *)
Definition slice_bound (len i : Z) : Z :=
  if (i <? 0)%Z then Z.max 0 (i + len) else Z.min i len.

(** [l[start:stop]] *)
Definition slice {A} (l : list A) (start stop : Z) : list A :=
  let len := Z.of_nat (List.length l) in
  let lo := slice_bound len start in
  let hi := slice_bound len stop in
  take (Z.to_nat (hi - lo)) (drop (Z.to_nat lo) l).

Definition extract_span (doc_text query : string) (window : Z) : string :=
  let words := _tokenize_words doc_text in
  let q_words := _tokenize_words (lower query) in
  let lower_words := map lower words in
  let idx := first_hit q_words lower_words in
  let idx := if (idx =? -1)%Z then 0%Z else idx in
  let start := Z.max 0 (idx - window `div` 2) in
  let stop := Z.min (Z.of_nat (List.length words)) (start + window) in
  Compiler.join " " (slice words start stop).

End Spans.

(** ** model/planner.py *)

Module Planner.
Local Open Scope string_scope.
Import Schema.

Definition _hash_text (text : string) : string := Sha256.sha256_hex text.

(** A document is a dictionary with the keys "id" and "text". *)
Definition plan_proof (query answer : string) (documents : list (gmap string string))
    : res EvidenceGraph :=
  let claim_id := "c1" in
  claim_node ← Node_init (Node.mk claim_id "claim" (Some answer) None None None
                                  None None None None None);
  match documents with
  | [] => Ok (mkGraph [claim_node] [])
  | doc :: _ =>
      let span_text := Spans.extract_span (default "" (doc !! "text")) query 40 in
      let hash_val := _hash_text span_text in
      let evidence_id := "e1" in
      evidence_node ← Node_init (Node.mk evidence_id "evidence" None
                                         (Some (default "unknown" (doc !! "id")))
                                         (Some span_text) (Some hash_val)
                                         None None None None None);
      edge ← Edge_init (Edge.mk evidence_id claim_id "supports");
      Ok (mkGraph [claim_node; evidence_node] [edge])
  end.

End Planner.

(** ** model/runner.py: the public entry point *)

Module PaladinRunner.
Local Open Scope string_scope.
Import Schema.

(** What [answer_and_proof] returns: the keys "answer", "graph", "valid"
    and "details". *)
Record Answer : Type := mkAnswer {
  answer : string;
  graph : list (list (string * option string)) * list (list (string * string));
  valid : bool;
  details : Runner.Details
}.

Section runner.
Context {F : Type} `{Numeric.PyFloat F}.
Context (ast_parse : string → res (Numeric.tree (F:=F))).
Context (str_format : string → Numeric.value (F:=F) → res string).
(** The retriever and the answerer are collaborators of the runner; it
    only calls them. *)
Context (retrieve : string → Z → res (list (gmap string string))).
Context (answer_question : string → list (gmap string string) → res string).

Definition answer_and_proof (query : string) (top_k : Z) : res Answer :=
  docs ← retrieve query top_k;
  ans ← answer_question query docs;
  g ← Planner.plan_proof query ans docs;
  '(valid, details) ← Runner._verify ast_parse str_format g;
  Ok (mkAnswer ans (to_dict g) valid details).

End runner.
End PaladinRunner.

(** ** Reachability: what the traversal computes *)

Module Reach.
Import Schema.

(** A node id is reachable when it is the id of an evidence, calc or
    entailment node, or the target of a followed edge whose source is
    reachable. *)
Inductive Reachable (g : EvidenceGraph) : string → Prop :=
| reach_seed n :
    n ∈ nodes g → Node.type n ∈ seed_types → Reachable g (Node.id n)
| reach_step e :
    Reachable g (Edge.source e) → e ∈ edges g → Edge.type e ∈ followed →
    Reachable g (Edge.target e).

(** No followed edge points outside the node list. *)
Definition targets_exist (g : EvidenceGraph) : Prop :=
  ∀ e, e ∈ edges g → Edge.type e ∈ followed →
       Edge.target e ∈ map Node.id (nodes g).

(** Number of ids of [ids] still marked [False]. *)
Definition unmarked (ids : list string) (m : gmap string bool) : nat :=
  List.length (filter (λ k, m !! k = Some false) ids).

Lemma unmarked_insert_le ids (m : gmap string bool) k :
  unmarked ids (<[k:=true]> m) ≤ unmarked ids m.
Proof.
  unfold unmarked. induction ids as [|a ids IH]; [done|].
  rewrite !filter_cons. destruct (decide (a = k)) as [->|Hne].
  - rewrite lookup_insert_eq. rewrite decide_False by done.
    case_decide; simpl; lia.
  - rewrite lookup_insert_ne by done. case_decide; simpl; lia.
Qed.

Lemma unmarked_insert_lt ids (m : gmap string bool) k :
  k ∈ ids → m !! k = Some false →
  unmarked ids (<[k:=true]> m) < unmarked ids m.
Proof.
  intros Hin Hk. unfold unmarked. induction ids as [|a ids IH].
  { by apply not_elem_of_nil in Hin. }
  rewrite !filter_cons. destruct (decide (a = k)) as [->|Hne].
  - rewrite lookup_insert_eq, Hk. rewrite decide_False by done.
    rewrite decide_True by done. simpl.
    pose proof (unmarked_insert_le ids m k) as Hle. unfold unmarked in Hle. lia.
  - rewrite lookup_insert_ne by done.
    apply elem_of_cons in Hin as [->|Hin]; [done|].
    specialize (IH Hin). case_decide; simpl; lia.
Qed.

Lemma unmarked_le_length ids m : unmarked ids m ≤ List.length ids.
Proof. unfold unmarked. apply length_filter. Qed.

Section traversal.
Context (g : EvidenceGraph).

Let ids := map Node.id (nodes g).

(** The loop invariant of [while stack]. *)
Record Inv (m : gmap string bool) (stack : list string) : Prop := {
  inv_dom k : is_Some (m !! k) ↔ k ∈ ids;
  inv_sound k : m !! k = Some true → Reachable g k;
  inv_seeds k : k ∈ seeds g → m !! k = Some true;
  inv_closed e :
    e ∈ edges g → Edge.type e ∈ followed →
    m !! Edge.source e = Some true → Edge.source e ∉ stack →
    m !! Edge.target e = Some true;
  inv_stack k : k ∈ stack → m !! k = Some true;
}.

Lemma visit_raises out m st e :
  visit out m st = Raise e → ∃ k, e = KeyError k.
Proof.
  revert m st. induction out as [|edge out IH]; intros m st; simpl; [done|].
  case_bool_decide; [|by apply IH].
  destruct (m !! Edge.target edge) as [[]|]; [by apply IH..|].
  intros [= <-]. eauto.
Qed.

Lemma visit_measure out m st m' st' :
  visit out m st = Ok (m', st') →
  (∀ k, is_Some (m !! k) → k ∈ ids) →
  unmarked ids m' + List.length st' ≤ unmarked ids m + List.length st.
Proof.
  revert m st. induction out as [|edge out IH]; intros m st; simpl.
  { intros [= <- <-]; lia. }
  case_bool_decide; [|by apply IH].
  destruct (m !! Edge.target edge) as [[]|] eqn:Ht; [by apply IH| |done].
  intros Hv Hdom. apply IH in Hv.
  - assert (unmarked ids (<[Edge.target edge:=true]> m) < unmarked ids m) as Hlt.
    { apply unmarked_insert_lt; [|done]. apply Hdom. by rewrite Ht. }
    simpl in Hv. lia.
  - intros k [b Hb]. destruct (decide (k = Edge.target edge)) as [->|].
    + by apply Hdom.
    + rewrite lookup_insert_ne in Hb by done. by apply Hdom.
Qed.

(** One pass over the out-edges of [cur]: marks only grow, every new
    mark is pushed and is the target of a followed edge of the pass, and
    after the pass every followed edge of it has a marked target. *)
Lemma visit_spec out m st m' st' :
  visit out m st = Ok (m', st') →
  (∀ k, is_Some (m' !! k) ↔ is_Some (m !! k)) ∧
  (∀ k, m !! k = Some true → m' !! k = Some true) ∧
  (∀ k, m' !! k = Some true →
        m !! k = Some true ∨
        (k ∈ st' ∧ ∃ e, e ∈ out ∧ Edge.type e ∈ followed ∧ Edge.target e = k)) ∧
  (∀ k, k ∈ st → k ∈ st') ∧
  (∀ e, e ∈ out → Edge.type e ∈ followed → m' !! Edge.target e = Some true) ∧
  (∀ k, k ∈ st' → k ∈ st ∨ m' !! k = Some true).
Proof.
  revert m st. induction out as [|edge out IH]; intros m st; simpl.
  { intros [= <- <-]. split_and!; try done; [by left| |by left].
    intros e He. by apply not_elem_of_nil in He. }
  case_bool_decide as Hf.
  - destruct (m !! Edge.target edge) as [[]|] eqn:Ht; [| |done].
    + intros Hv. destruct (IH _ _ Hv) as (Hd & Hm & Hn & Hs & Hc & Ho).
      split_and!; try done.
      * intros k Hk. destruct (Hn k Hk) as [?|(? & e & ? & ? & ?)]; [by left|].
        right. split; [done|]. exists e. by rewrite elem_of_cons; auto.
      * intros e [->|He]%elem_of_cons Hfe; [by apply Hm|by apply Hc].
    + intros Hv. destruct (IH _ _ Hv) as (Hd & Hm & Hn & Hs & Hc & Ho).
      split_and!.
      * intros k. rewrite Hd. destruct (decide (k = Edge.target edge)) as [->|].
        -- rewrite lookup_insert_eq, Ht. by split; eauto.
        -- by rewrite lookup_insert_ne.
      * intros k Hk. apply Hm. destruct (decide (k = Edge.target edge)) as [->|].
        -- by rewrite lookup_insert_eq.
        -- by rewrite lookup_insert_ne.
      * intros k Hk. destruct (decide (k = Edge.target edge)) as [->|Hne].
        -- right. split; [apply Hs; by left|].
           exists edge. split_and!; [by left|done..].
        -- destruct (Hn k Hk) as [Hk'|(? & e & ? & ? & ?)].
           ++ left. by rewrite lookup_insert_ne in Hk'.
           ++ right. split; [done|]. exists e. by rewrite elem_of_cons; auto.
      * intros k Hk. apply Hs. by right.
      * intros e [->|He]%elem_of_cons Hfe; [|by apply Hc].
        apply Hm. by rewrite lookup_insert_eq.
      * intros k Hk. destruct (Ho k Hk) as [[->|?]%elem_of_cons|?]; [|by left|by right].
        right. apply Hm. by rewrite lookup_insert_eq.
  - intros Hv. destruct (IH _ _ Hv) as (Hd & Hm & Hn & Hs & Hc & Ho).
    split_and!; try done.
    + intros k Hk. destruct (Hn k Hk) as [?|(? & e & ? & ? & ?)]; [by left|].
      right. split; [done|]. exists e. by rewrite elem_of_cons; auto.
    + intros e [->|He]%elem_of_cons Hfe; [done|by apply Hc].
Qed.


Lemma visit_inv cur m st m' st' :
  Inv m (cur :: st) →
  visit (outgoing g cur) m st = Ok (m', st') →
  Inv m' st'.
Proof.
  intros HI Hv.
  assert (m !! cur = Some true) as Hcur by (apply (inv_stack _ _ HI); by left).
  destruct (visit_spec _ _ _ _ _ Hv) as (Hd & Hm & Hn & Hs & Hc & Ho).
  split.
  - intros k. rewrite Hd. apply (inv_dom _ _ HI).
  - intros k Hk. destruct (Hn k Hk) as [?|(_ & e & He & Hf & <-)].
    + by apply (inv_sound _ _ HI).
    + apply list_elem_of_filter in He as [Hsrc He].
      apply reach_step; [|done..]. rewrite Hsrc. by apply (inv_sound _ _ HI).
  - intros k Hk. apply Hm. by apply (inv_seeds _ _ HI).
  - intros e He Hf Hsrc Hnot.
    destruct (decide (Edge.source e = cur)) as [Heq|Hne].
    + apply Hc; [|done]. by apply list_elem_of_filter.
    + destruct (Hn _ Hsrc) as [Hold|[? _]]; [|done].
      apply Hm. apply (inv_closed _ _ HI); [done..|].
      intros [?|?]%elem_of_cons; [done|]. apply Hnot. by apply Hs.
  - intros k Hk. destruct (Ho k Hk) as [?|?]; [|done].
    apply Hm. apply (inv_stack _ _ HI). by right.
Qed.

Lemma search_inv fuel m st m' :
  search fuel g m st = Ok m' → Inv m st → Inv m' [].
Proof.
  revert m st. induction fuel as [|fuel IH]; intros m [|cur st]; simpl;
    try done; try by intros [= <-].
  destruct (visit (outgoing g cur) m st) as [[m1 st1]|] eqn:Hv; [|done].
  simpl. intros Hs HI. eapply IH; [done|]. by eapply visit_inv.
Qed.

(** Enough fuel: every iteration pops one id and pushes only ids it
    has just marked. *)
Lemma search_fuel fuel m st :
  (∀ k, is_Some (m !! k) → k ∈ ids) →
  unmarked ids m + List.length st ≤ fuel →
  search fuel g m st ≠ Raise OutOfFuel.
Proof.
  revert m st. induction fuel as [|fuel IH]; intros m [|cur st] Hdom; simpl;
    try done; try lia.
  intros Hle.
  destruct (visit (outgoing g cur) m st) as [[m1 st1]|e] eqn:Hv; simpl.
  - apply IH.
    + intros k Hk. apply Hdom. by apply (visit_spec _ _ _ _ _ Hv).
    + apply visit_measure in Hv; [lia|done].
  - apply visit_raises in Hv as [k ->]. done.
Qed.

Lemma visit_total out m st :
  (∀ e, e ∈ out → Edge.type e ∈ followed → is_Some (m !! Edge.target e)) →
  ∃ r, visit out m st = Ok r.
Proof.
  revert m st. induction out as [|edge out IH]; intros m st Hout; simpl; [eauto|].
  assert (∀ e, e ∈ out → Edge.type e ∈ followed → is_Some (m !! Edge.target e))
    as Hout' by (intros; apply Hout; [by right|done]).
  case_bool_decide as Hf; [|by apply IH].
  destruct (Hout edge) as [[] Ht]; [by left|done|..]; rewrite Ht; [by apply IH|].
  apply IH. intros e He Hfe.
  destruct (decide (Edge.target e = Edge.target edge)) as [->|].
  - by rewrite lookup_insert_eq.
  - rewrite lookup_insert_ne by done. by apply Hout'.
Qed.

Lemma search_total fuel m st :
  targets_exist g →
  (∀ k, is_Some (m !! k) ↔ k ∈ ids) →
  unmarked ids m + List.length st ≤ fuel →
  ∃ m', search fuel g m st = Ok m'.
Proof.
  intros Hex. revert m st.
  induction fuel as [|fuel IH]; intros m [|cur st] Hdom; simpl; eauto; try lia.
  intros Hle.
  destruct (visit_total (outgoing g cur) m st) as [[m1 st1] Hv].
  { intros e [_ He]%list_elem_of_filter Hf. apply Hdom. by apply Hex. }
  rewrite Hv. simpl. apply IH.
  - intros k. rewrite <-Hdom. by apply (visit_spec _ _ _ _ _ Hv).
  - apply visit_measure in Hv; [lia|]. intros k. by rewrite Hdom.
Qed.

(** The dictionary before the loop. *)
Lemma lookup_init_false (ns : list Node.t) (m0 : gmap string bool) k :
  foldl (λ m n, <[Node.id n := false]> m) m0 ns !! k =
  if decide (k ∈ map Node.id ns) then Some false else m0 !! k.
Proof.
  revert m0. induction ns as [|n ns IH]; intros m0; cbn [foldl map].
  { rewrite decide_False; [done|]. apply not_elem_of_nil. }
  rewrite IH. destruct (decide (k ∈ map Node.id ns)) as [Hin|Hnin].
  - rewrite decide_True; [done|]. by right.
  - destruct (decide (k = Node.id n)) as [->|Hne].
    + rewrite lookup_insert_eq. rewrite decide_True; [done|]. by left.
    + rewrite lookup_insert_ne by done. rewrite decide_False; [done|].
      by intros [?|?]%elem_of_cons.
Qed.

Lemma lookup_mark_true (ks : list string) (m0 : gmap string bool) k :
  foldl (λ m nid, <[nid := true]> m) m0 ks !! k =
  if decide (k ∈ ks) then Some true else m0 !! k.
Proof.
  revert m0. induction ks as [|a ks IH]; intros m0; cbn [foldl].
  { rewrite decide_False; [done|]. apply not_elem_of_nil. }
  rewrite IH. destruct (decide (k ∈ ks)) as [Hin|Hnin].
  - rewrite decide_True; [done|]. by right.
  - destruct (decide (k = a)) as [->|Hne].
    + rewrite lookup_insert_eq. rewrite decide_True; [done|]. by left.
    + rewrite lookup_insert_ne by done. rewrite decide_False; [done|].
      by intros [?|?]%elem_of_cons.
Qed.

Definition initial : gmap string bool :=
  foldl (λ m nid, <[nid := true]> m)
        (foldl (λ m n, <[Node.id n := false]> m) ∅ (nodes g)) (seeds g).

Lemma seeds_ids k : k ∈ seeds g → k ∈ ids.
Proof.
  unfold seeds, ids. intros (n & -> & [_ Hn]%list_elem_of_filter)%list_elem_of_fmap.
  apply list_elem_of_fmap. eauto.
Qed.

Lemma initial_dom k : is_Some (initial !! k) ↔ k ∈ ids.
Proof.
  unfold initial. rewrite lookup_mark_true, lookup_init_false.
  fold ids. rewrite lookup_empty. split.
  - destruct (decide (k ∈ seeds g)) as [Hs|]; [intros _; by apply seeds_ids|].
    destruct (decide (k ∈ ids)); [done|]. by intros [? ?].
  - intros Hk. destruct (decide (k ∈ seeds g)); [eauto|].
    rewrite decide_True by done. eauto.
Qed.

Lemma initial_true k : initial !! k = Some true ↔ k ∈ seeds g.
Proof.
  unfold initial. rewrite lookup_mark_true, lookup_init_false, lookup_empty.
  destruct (decide (k ∈ seeds g)); [done|].
  destruct (decide _); by split.
Qed.

Lemma seeds_reachable k : k ∈ seeds g → Reachable g k.
Proof.
  unfold seeds. intros (n & -> & [Ht Hn]%list_elem_of_filter)%list_elem_of_fmap.
  by apply reach_seed.
Qed.

Lemma initial_inv : Inv initial (reverse (seeds g)).
Proof.
  split.
  - apply initial_dom.
  - intros k Hk. apply initial_true in Hk. by apply seeds_reachable.
  - intros k Hk. by apply initial_true.
  - intros e _ _ Hs Hnot. apply initial_true in Hs. destruct Hnot. by apply elem_of_reverse.
  - intros k Hk. rewrite elem_of_reverse in Hk. by apply initial_true.
Qed.

Lemma initial_measure :
  unmarked ids initial + List.length (reverse (seeds g)) ≤ 2 * List.length (nodes g).
Proof.
  pose proof (unmarked_le_length ids initial) as H1.
  unfold ids in H1 at 2. rewrite length_map in H1.
  rewrite length_reverse. unfold seeds. rewrite length_map.
  pose proof (length_filter (λ n, Node.type n ∈ seed_types) (nodes g)). lia.
Qed.

(** The traversal never runs out of fuel. *)
Lemma reachable_from_evidence_fuel :
  reachable_from_evidence g ≠ Raise OutOfFuel.
Proof.
  apply search_fuel; [|apply initial_measure].
  intros k. by rewrite (initial_dom k).
Qed.

(** What it returns: a dictionary over exactly the node ids that maps
    the reachable ones to [True]. *)
Lemma reachable_from_evidence_spec m :
  reachable_from_evidence g = Ok m →
  (∀ k, is_Some (m !! k) ↔ k ∈ ids) ∧
  (∀ k, m !! k = Some true ↔ Reachable g k).
Proof.
  intros Hs. apply search_inv in Hs; [|apply initial_inv].
  split; [apply (inv_dom _ _ Hs)|].
  intros k. split; [apply (inv_sound _ _ Hs)|].
  induction 1 as [n Hn Ht|e _ IH He Hf].
  - apply (inv_seeds _ _ Hs). unfold seeds.
    apply list_elem_of_fmap. exists n. split; [done|]. by apply list_elem_of_filter.
  - apply (inv_closed _ _ Hs); [done..|]. apply not_elem_of_nil.
Qed.

(** It raises only on a followed edge that points outside the graph. *)
Lemma reachable_from_evidence_total :
  targets_exist g → ∃ m, reachable_from_evidence g = Ok m.
Proof.
  intros Hex. apply search_total; [done|apply initial_dom|apply initial_measure].
Qed.

Lemma validate_connectivity_spec b :
  validate_connectivity g = Ok b →
  (b = true ↔ ∀ c, c ∈ final_claims g → Reachable g (Node.id c)).
Proof.
  unfold validate_connectivity.
  destruct (reachable_from_evidence g) as [m|] eqn:Hm; [|done].
  simpl. intros [= <-]. apply reachable_from_evidence_spec in Hm as [_ Hm].
  rewrite forallb_forall. setoid_rewrite <-list_elem_of_In.
  split; intros H c Hc; specialize (H c Hc).
  - apply Hm. by destruct (m !! Node.id c) as [[]|].
  - apply Hm in H. by rewrite H.
Qed.

Lemma validate_connectivity_fuel : validate_connectivity g ≠ Raise OutOfFuel.
Proof.
  unfold validate_connectivity. pose proof reachable_from_evidence_fuel as Hf.
  destruct (reachable_from_evidence g); simpl; congruence.
Qed.

Lemma validate_connectivity_total :
  targets_exist g → ∃ b, validate_connectivity g = Ok b.
Proof.
  intros [m Hm]%reachable_from_evidence_total.
  unfold validate_connectivity. rewrite Hm. simpl. eauto.
Qed.

End traversal.
End Reach.

(** ** The support classifier *)

Module TruthLensFacts.
Import Text TruthLens.
Local Open Scope string_scope.

Lemma app_String c (a b : string) : String c a ++ b = String c (a ++ b).
Proof. reflexivity. Qed.

Lemma app_empty (b : string) : "" ++ b = b.
Proof. reflexivity. Qed.

Lemma prefix_app (a s : string) :
  String.prefix a s = true ↔ ∃ post, s = a ++ post.
Proof.
  revert s. induction a as [|c a IH]; intros s.
  { split; [by exists s|by destruct s]. }
  destruct s as [|d s]; simpl.
  { split; [done|]. by intros [post ?]. }
  destruct (Ascii.ascii_dec c d) as [->|Hne].
  - rewrite IH. split; intros [post Hp]; exists post;
      rewrite app_String in *; congruence.
  - split; [done|]. intros [post Hp]. rewrite app_String in Hp. congruence.
Qed.

Lemma contains_Substring (sub s : string) :
  contains sub s = true ↔ Substring sub s.
Proof.
  induction s as [|c s IH]; cbn [contains].
  - rewrite orb_false_r, prefix_app. split.
    + intros [post Hp]. by exists "", post.
    + intros ([|? ?] & post & Hp); [by exists post|].
      by rewrite app_String in Hp.
  - rewrite orb_true_iff, IH, prefix_app. split.
    + intros [[post Hp]|(pre & post & ->)].
      * by exists "", post.
      * by exists (String c pre), post.
    + intros ([|d pre] & post & Hp).
      * left. by exists post.
      * right. rewrite app_String in Hp. injection Hp as -> ->. by exists pre, post.
Qed.

Lemma mem_elem_of (x : string) (l : list string) : mem x l = true ↔ x ∈ l.
Proof.
  unfold mem. rewrite existsb_exists. setoid_rewrite String.eqb_eq.
  setoid_rewrite <-list_elem_of_In. split; [by intros (? & ? & ->)|eauto].
Qed.

(** The hypothesis tokens found among the premise tokens. *)
Definition present (p_tokens h_tokens : list string) : list string :=
  filter (λ t, t ∈ p_tokens) h_tokens.

Lemma matches_present p_tokens h_tokens :
  matches p_tokens h_tokens = List.length (present p_tokens h_tokens).
Proof.
  unfold matches, present. induction h_tokens as [|t h IH]; [done|].
  simpl. rewrite filter_cons. destruct (mem t p_tokens) eqn:Hm.
  - apply mem_elem_of in Hm. rewrite decide_True by done. simpl. by rewrite IH.
  - rewrite decide_False; [done|]. intros Hin%mem_elem_of. congruence.
Qed.

(** Some marker followed by a blank and a hypothesis token occurs in the
    lowercased premise. *)
Definition Negated (premise : string) (h_tokens : list string) : Prop :=
  ∃ marker tok, marker ∈ negations ∧ tok ∈ h_tokens ∧
                Substring (marker ++ " " ++ tok) (lower premise).

Lemma negated_test premise h_tokens :
  existsb (λ neg,
     existsb (λ tok, contains (neg ++ " " ++ tok) (lower premise)) h_tokens)
    negations = true ↔ Negated premise h_tokens.
Proof.
  rewrite existsb_exists. unfold Negated. split.
  - intros (marker & Hm & (tok & Ht & Hc)%existsb_exists).
    exists marker, tok. rewrite !list_elem_of_In. by rewrite <-contains_Substring.
  - intros (marker & tok & Hm & Ht & Hs). exists marker.
    rewrite existsb_exists, <-list_elem_of_In. split; [done|]. exists tok.
    by rewrite <-list_elem_of_In, contains_Substring.
Qed.

(** C3.  [get_support_level] answers unverifiable when the hypothesis has
    no token; otherwise contradicted when some marker among not, no, never
    followed by a blank and a hypothesis token occurs in the lowercased
    premise, whatever the overlap; otherwise supported when at least half
    of the hypothesis tokens are premise tokens, and unverifiable for every
    smaller share.  The premise "The capital of France is not Paris." and
    the hypothesis "France's capital is Paris" are classified as
    contradicted. *)
Theorem get_support_level_spec :
  (∀ premise hypothesis,
     let h_tokens := _tokenize hypothesis in
     let found := List.length (present (_tokenize premise) h_tokens) in
     (h_tokens = [] → get_support_level premise hypothesis = "unverifiable") ∧
     (h_tokens ≠ [] → Negated premise h_tokens →
      get_support_level premise hypothesis = "contradicted") ∧
     (h_tokens ≠ [] → ¬ Negated premise h_tokens →
      (List.length h_tokens ≤ 2 * found)%nat →
      get_support_level premise hypothesis = "supported") ∧
     (h_tokens ≠ [] → ¬ Negated premise h_tokens →
      (2 * found < List.length h_tokens)%nat →
      get_support_level premise hypothesis = "unverifiable")) ∧
  get_support_level "The capital of France is not Paris."
                    "France's capital is Paris" = "contradicted".
Proof.
  split; [|by vm_compute].
  intros premise hypothesis. cbv zeta. unfold get_support_level.
  rewrite matches_present.
  generalize (negated_test premise (_tokenize hypothesis)).
  generalize (_tokenize hypothesis). intros [|t h] Hneg; [by split_and!|].
  cbv iota. destruct (existsb _ negations).
  - split_and!; try done; intros _ Hn; by destruct Hn; apply Hneg.
  - assert (¬ Negated premise (t :: h)) as Hn by (intros ?%Hneg; done).
    split_and!; try done.
    + intros _ _ Hle. by apply Nat.leb_le in Hle as ->.
    + intros _ _ Hlt. apply Nat.leb_gt in Hlt as ->. by destruct (_ <=? _)%nat.
Qed.

Lemma present_all (p_tokens h_tokens : list string) :
  (∀ x, x ∈ h_tokens → x ∈ p_tokens) → present p_tokens h_tokens = h_tokens.
Proof.
  unfold present. induction h_tokens as [|t l IH]; intros Hall; [done|].
  rewrite filter_cons, decide_True by (apply Hall; by left).
  f_equal. apply IH. intros x Hx. apply Hall. by right.
Qed.

(** X9.  A text supports itself exactly when it has a token and carries no
    negation of one of its own tokens. *)
Lemma self_support (text : string) :
  get_support_level text text = "supported" ↔
  _tokenize text ≠ [] ∧ ¬ Negated text (_tokenize text).
Proof.
  unfold get_support_level. rewrite matches_present.
  generalize (negated_test text (_tokenize text)).
  rewrite present_all by done.
  destruct (_tokenize text) as [|t l] eqn:Htok; intros Hneg.
  { split; [done|]. by intros [? _]. }
  destruct (existsb _ negations).
  - split; [done|]. intros [_ Hn]. destruct Hn. by apply Hneg.
  - assert ((List.length (t :: l) <=? 2 * List.length (t :: l))%nat = true) as ->
      by (apply Nat.leb_le; lia).
    split; [|done]. intros _. split; [done|]. intros Hn%Hneg. done.
Qed.

End TruthLensFacts.

(** ** Structural validity *)

Module Valid.
Import Schema Reach.

(** A graph is structurally valid when [validate_graph] returns no
    violation. *)
Definition structurally_valid (g : EvidenceGraph) : Prop :=
  validate_graph g = Ok [].

(** Distinct node ids, and every edge between two of them. *)
Record WellFormed (g : EvidenceGraph) : Prop := {
  wf_ids : NoDup (map Node.id (nodes g));
  wf_source e : e ∈ edges g → Edge.source e ∈ map Node.id (nodes g);
  wf_target e : e ∈ edges g → Edge.target e ∈ map Node.id (nodes g);
}.

Lemma size_list_to_set_le (l : list string) :
  size (list_to_set l : gset string) ≤ List.length l.
Proof.
  induction l as [|a l IH]; [by rewrite list_to_set_nil, size_empty|].
  rewrite list_to_set_cons, size_union_alt, size_singleton. cbn [List.length].
  pose proof (subseteq_size (list_to_set l ∖ {[a]}) (list_to_set l : gset string)) as Hs.
  assert (list_to_set l ∖ {[a]} ⊆ (list_to_set l : gset string))
    by (intros x; rewrite elem_of_difference; tauto).
  specialize (Hs ltac:(done)). lia.
Qed.

Lemma size_list_to_set_NoDup (l : list string) :
  size (list_to_set l : gset string) = List.length l → NoDup l.
Proof.
  induction l as [|a l IH]; [constructor|].
  rewrite list_to_set_cons. cbn [List.length].
  intros Hsz. pose proof (size_list_to_set_le l) as Hle.
  destruct (decide (a ∈ l)) as [Hin|Hnin].
  - assert ({[a]} ∪ list_to_set l = (list_to_set l : gset string)) as Heq.
    { apply set_eq. intros x. rewrite elem_of_union, elem_of_singleton.
      rewrite elem_of_list_to_set. split; [by intros [->|?]|by right]. }
    rewrite Heq in Hsz. lia.
  - rewrite size_union, size_singleton in Hsz.
    + constructor; [done|]. apply IH. lia.
    + apply disjoint_singleton_l. by rewrite elem_of_list_to_set.
Qed.

Lemma edge_errors_nil ids e :
  edge_errors ids e = [] ↔ Edge.source e ∈ ids ∧ Edge.target e ∈ ids.
Proof.
  unfold edge_errors. cbv zeta.
  repeat case_bool_decide; simpl; split; try done; try tauto.
  all: intros _; split; by apply dec_stable.
Qed.

Lemma flat_map_nil {A B} (f : A → list B) (l : list A) :
  flat_map f l = [] ↔ ∀ x, x ∈ l → f x = [].
Proof.
  induction l as [|a l IH]; simpl.
  - split; [|done]. intros _ x Hx. by apply not_elem_of_nil in Hx.
  - split.
    + intros [Ha Hl]%app_eq_nil x [->|Hx]%elem_of_cons; [done|]. by apply IH.
    + intros Hall. rewrite (Hall a) by (by left). simpl. apply IH.
      intros x Hx. apply Hall. by right.
Qed.

(** What an empty violation list says. *)
Lemma structurally_valid_inv g :
  structurally_valid g → WellFormed g ∧ validate_connectivity g = Ok true.
Proof.
  unfold structurally_valid, validate_graph. cbv zeta.
  destruct (validate_connectivity g) as [[]|]; simpl; [|intros [= Hnil]|done].
  - intros [= [Hdup Hedges]%app_eq_nil]. split; [|done].
    assert (size (node_ids g) = List.length (nodes g)) as Hsz.
    { destruct (decide (size (node_ids g) = List.length (nodes g))); [done|].
      by rewrite bool_decide_eq_true_2 in Hdup. }
    unfold node_ids in Hsz. rewrite <-(length_map Node.id) in Hsz.
    apply size_list_to_set_NoDup in Hsz.
    split; [done|..]; intros e He;
      apply (proj1 (flat_map_nil _ _) Hedges), edge_errors_nil in He;
      unfold node_ids in He; rewrite !elem_of_list_to_set in He; tauto.
  - by apply app_eq_nil in Hnil as [_ ?].
Qed.

Lemma WellFormed_targets_exist g : WellFormed g → targets_exist g.
Proof. intros Hwf e He _. by apply (wf_target _ Hwf). Qed.

(** The id-to-node dictionary of a graph with distinct ids. *)
Lemma foldl_node_map_lookup (ns : list Node.t) (m0 : gmap string Node.t) k n :
  NoDup (map Node.id ns) →
  foldl (λ m n, <[Node.id n := n]> m) m0 ns !! k = Some n ↔
  (n ∈ ns ∧ Node.id n = k) ∨ ((k ∉ map Node.id ns) ∧ m0 !! k = Some n).
Proof.
  revert m0. induction ns as [|a ns IH]; intros m0; cbn [foldl map].
  { intros _. split; [intros ?; right; split; [apply not_elem_of_nil|done]|].
    intros [[Hn _]|[_ ?]]; [by apply not_elem_of_nil in Hn|done]. }
  intros [Ha Hnd]%NoDup_cons. rewrite IH by done. split.
  - intros [[Hn Hk]|[Hk Hl]].
    + left. split; [by right|done].
    + destruct (decide (Node.id a = k)) as [<-|Hne].
      * rewrite lookup_insert_eq in Hl. injection Hl as ->.
        left. split; [by left|done].
      * rewrite lookup_insert_ne in Hl by done. right. split; [|done].
        intros [?|?]%elem_of_cons; [congruence|done].
  - intros [[[->|Hn]%elem_of_cons Hk]|[Hne Hl]].
    + right. subst k. split; [done|]. by rewrite lookup_insert_eq.
    + by left.
    + apply not_elem_of_cons in Hne as [Hne Hk]. right. split; [done|].
      by rewrite lookup_insert_ne.
Qed.

Lemma get_node_Some g k n :
  NoDup (map Node.id (nodes g)) →
  get_node g k = Some n ↔ n ∈ nodes g ∧ Node.id n = k.
Proof.
  intros Hnd. unfold get_node, node_map. rewrite foldl_node_map_lookup by done.
  rewrite lookup_empty. split; [by intros [?|[_ ?]]|by left].
Qed.

Lemma node_of_id (ns : list Node.t) (x y : Node.t) :
  NoDup (map Node.id ns) → x ∈ ns → y ∈ ns → Node.id x = Node.id y → x = y.
Proof.
  induction ns as [|a ns IH]; cbn [map]; [by intros _ ?%not_elem_of_nil|].
  intros [Ha Hnd]%NoDup_cons [->|Hx]%elem_of_cons [->|Hy]%elem_of_cons Heq;
    [done|..|by apply IH].
  - destruct Ha. rewrite Heq. by apply list_elem_of_fmap_2.
  - destruct Ha. rewrite <-Heq. by apply list_elem_of_fmap_2.
Qed.

Lemma get_node_is_Some g k :
  NoDup (map Node.id (nodes g)) →
  k ∈ map Node.id (nodes g) → is_Some (get_node g k).
Proof.
  intros Hnd (n & -> & Hn)%list_elem_of_fmap. exists n. by apply get_node_Some.
Qed.

End Valid.

(** ** The minimality checker *)

Module MinimalityFacts.
Import Schema Reach Valid Minimality.

(** Every final claim is reachable. *)
Definition Connected (g : EvidenceGraph) : Prop :=
  ∀ c, c ∈ final_claims g → Reachable g (Node.id c).

(** The span of an evidence node supports the text of a claim node. *)
Definition Supports (src tgt : Node.t) : Prop :=
  TruthLens.get_support_level (default ""%string (Node.span src))
                              (default ""%string (Node.text tgt))
  = "supported"%string.

(** Every supports edge from an evidence node to a claim node classifies
    as supported. *)
Definition SupportsHold (g : EvidenceGraph) : Prop :=
  ∀ e src tgt,
    e ∈ edges g → Edge.type e = "supports"%string →
    src ∈ nodes g → Node.id src = Edge.source e → Node.type src = "evidence"%string →
    tgt ∈ nodes g → Node.id tgt = Edge.target e → Node.type tgt = "claim"%string →
    Supports src tgt.

(** What the checker tests on the graph it builds for position [i]. *)
Definition Removable (g : EvidenceGraph) (i : nat) : Prop :=
  Connected (_graph_without_edge g i) ∧ SupportsHold (_graph_without_edge g i).

(** *** The words of the minimality claim, stated apart from the code *)

(** The graph with the edge at position [i] omitted: the same nodes, and
    the edges before and after that position, in their order. *)
Definition omit_edge (g : EvidenceGraph) (i : nat) : EvidenceGraph :=
  mkGraph (nodes g) (take i (edges g) ++ drop (S i) (edges g)).

(** A final claim: a claim node that no derives edge ends at. *)
Definition FinalClaim (g : EvidenceGraph) (c : Node.t) : Prop :=
  c ∈ nodes g ∧ Node.type c = "claim"%string ∧
  ∀ e, e ∈ edges g → Edge.target e = Node.id c → Edge.type e ≠ "derives"%string.

(** The edge at position [i] is redundant: with it omitted, every final
    claim is still reachable and every supports edge from an evidence node
    to a claim node still classifies as supported. *)
Definition Redundant (g : EvidenceGraph) (i : nat) : Prop :=
  (∀ c, FinalClaim (omit_edge g i) c → Reachable (omit_edge g i) (Node.id c)) ∧
  SupportsHold (omit_edge g i).

(** An edge written as source, then the two characters of an arrow, then
    target. *)
Definition descriptor (e : Edge.t) : string :=
  (Edge.source e ++ "->" ++ Edge.target e)%string.

(** [Picks P i es r]: [r] lists, in order, the descriptors of the edges
    of [es] whose position, counted from [i], satisfies [P]. *)
Inductive Picks (P : nat → Prop) : nat → list Edge.t → list string → Prop :=
| picks_nil i : Picks P i [] []
| picks_take i e es r :
    P i → Picks P (S i) es r → Picks P i (e :: es) (descriptor e :: r)
| picks_skip i e es r :
    ¬ P i → Picks P (S i) es r → Picks P i (e :: es) r.

Lemma Picks_iff (P Q : nat → Prop) i es r :
  (∀ j, P j ↔ Q j) → Picks P i es r → Picks Q i es r.
Proof.
  intros HPQ. induction 1 as [|i e es r Hi _ IH|i e es r Hi _ IH].
  - constructor.
  - apply picks_take; [by apply HPQ|done].
  - apply picks_skip; [by rewrite <-HPQ|done].
Qed.

(** The code writes the descriptor of the claim. *)
Lemma describe_descriptor e : describe e = descriptor e.
Proof. reflexivity. Qed.

(** The graph the code builds for position [i] is the graph with that edge
    omitted. *)
Lemma graph_without_edge_omit g i : _graph_without_edge g i = omit_edge g i.
Proof. unfold _graph_without_edge, omit_edge. by rewrite delete_take_drop. Qed.

(** The code's final claims are the final claims. *)
Lemma final_claims_FinalClaim g c : c ∈ final_claims g ↔ FinalClaim g c.
Proof.
  unfold final_claims, claims, is_final_claim, incoming, FinalClaim.
  rewrite !list_elem_of_filter, forallb_forall.
  setoid_rewrite <-list_elem_of_In. setoid_rewrite list_elem_of_filter.
  setoid_rewrite bool_decide_eq_true. split.
  - intros (Hall & Hty & Hc). split_and!; [done..|]. intros e He Ht. by apply Hall.
  - intros (Hc & Hty & Hall). split_and!; [|done..]. intros e [Ht He]. by apply Hall.
Qed.

Lemma Redundant_Removable g i : Redundant g i ↔ Removable g i.
Proof.
  unfold Redundant, Removable, Connected. rewrite graph_without_edge_omit.
  by setoid_rewrite final_claims_FinalClaim.
Qed.

Lemma Picks_elem_of P i es r j e :
  Picks P i es r → es !! j = Some e → P (i + j) → describe e ∈ r.
Proof.
  intros Hp. revert j. induction Hp as [|i e' es r Hi _ IH|i e' es r Hi _ IH];
    intros [|j] Hj HP; simplify_eq/=.
  - by left.
  - right. apply (IH j); [done|]. by replace (S (i + j)) with (i + S j) by lia.
  - rewrite Nat.add_0_r in HP. done.
  - apply (IH j); [done|]. by replace (S (i + j)) with (i + S j) by lia.
Qed.

Lemma Picks_none P i es r :
  Picks P i es r → (∀ j, j < List.length es → ¬ P (i + j)) → r = [].
Proof.
  induction 1 as [|i e' es r Hi _ IH|i e' es r Hi _ IH]; intros Hall; [done|..].
  - destruct (Hall 0); [simpl; lia|by rewrite Nat.add_0_r].
  - apply IH. intros j Hj. replace (S i + j) with (i + S j) by lia.
    apply Hall. simpl. lia.
Qed.

Lemma WellFormed_without g i : WellFormed g → WellFormed (_graph_without_edge g i).
Proof.
  intros [Hnd Hs Ht]. split; simpl; [done|..]; intros e He;
    [apply Hs|apply Ht]; by eapply list_subseteq_delete.
Qed.

Lemma edge_holds_spec g e :
  WellFormed g → e ∈ edges g →
  edge_holds g e = true ↔
  (Edge.type e = "supports"%string →
   ∀ src tgt, src ∈ nodes g → Node.id src = Edge.source e →
              Node.type src = "evidence"%string →
              tgt ∈ nodes g → Node.id tgt = Edge.target e →
              Node.type tgt = "claim"%string → Supports src tgt).
Proof.
  intros Hwf He. unfold edge_holds.
  pose proof (wf_ids g Hwf) as Hnd.
  destruct (get_node_is_Some g (Edge.source e) Hnd) as [src Hsrc];
    [by apply (wf_source g Hwf)|].
  destruct (get_node_is_Some g (Edge.target e) Hnd) as [tgt Htgt];
    [by apply (wf_target g Hwf)|].
  rewrite Hsrc, Htgt.
  apply get_node_Some in Hsrc as [Hsrc1 Hsrc2]; [|done].
  apply get_node_Some in Htgt as [Htgt1 Htgt2]; [|done].
  case_bool_decide as Hty; [by split|].
  case_bool_decide as Hkinds.
  - split; [|done]. intros _ _ src' tgt' Hs1 Hs2 Hs3 Ht1 Ht2 Ht3.
    assert (src' = src) as ->.
    { apply (node_of_id (nodes g)); [done..|congruence]. }
    assert (tgt' = tgt) as ->.
    { apply (node_of_id (nodes g)); [done..|congruence]. }
    tauto.
  - rewrite bool_decide_eq_true.
    assert (Node.type src = "evidence"%string ∧ Node.type tgt = "claim"%string)
      as [? ?] by (split; apply dec_stable; tauto).
    split; [|by intros Hall; apply Hall].
    intros Hlevel _ src' tgt' Hs1 Hs2 Hs3 Ht1 Ht2 Ht3.
    assert (src' = src) as ->.
    { apply (node_of_id (nodes g)); [done..|congruence]. }
    assert (tgt' = tgt) as ->.
    { apply (node_of_id (nodes g)); [done..|congruence]. }
    done.
Qed.

Lemma supports_valid_spec g :
  WellFormed g → _supports_valid g = true ↔ SupportsHold g.
Proof.
  intros Hwf. unfold _supports_valid, SupportsHold.
  rewrite forallb_forall. setoid_rewrite <-list_elem_of_In. split.
  - intros Hall e src tgt He Hty. apply (edge_holds_spec g e); auto.
  - intros Hall e He. apply edge_holds_spec; [done..|]. intros Hty src tgt.
    by apply Hall.
Qed.

Lemma connectivity_decides g :
  WellFormed g → ∃ b, validate_connectivity g = Ok b ∧ (b = true ↔ Connected g).
Proof.
  intros Hwf. destruct (validate_connectivity_total g) as [b Hb].
  { by apply WellFormed_targets_exist. }
  exists b. split; [done|]. by apply validate_connectivity_spec.
Qed.

Lemma removable_test g i :
  WellFormed g →
  ∃ b, validate_connectivity (_graph_without_edge g i) = Ok b ∧
       (b && _supports_valid (_graph_without_edge g i) = true ↔ Removable g i).
Proof.
  intros Hwf%(WellFormed_without g i).
  destruct (connectivity_decides _ Hwf) as (b & Hb & Hconn).
  exists b. split; [done|]. unfold Removable.
  by rewrite andb_true_iff, Hconn, supports_valid_spec.
Qed.

Lemma removable_from_spec g i es :
  WellFormed g →
  ∃ r, removable_from g i es = Ok r ∧ Picks (Removable g) i es r.
Proof.
  intros Hwf. revert i. induction es as [|e es IH]; intros i; simpl.
  { eexists. split; [done|constructor]. }
  destruct (removable_test g i Hwf) as (b & -> & Hb).
  destruct (IH (S i)) as (r & -> & Hr). simpl.
  destruct (b && _supports_valid _) eqn:Htest; eexists; (split; [done|]).
  - apply picks_take; [by apply Hb|done].
  - apply picks_skip; [|done]. rewrite <-Hb. congruence.
Qed.

(** The result of [check_minimality] on a graph with distinct node ids and
    no dangling edge. *)
Lemma check_minimality_picks g :
  WellFormed g → edges g ≠ [] →
  ∃ r, check_minimality g = Ok (bool_decide (r = []), r) ∧
       Picks (Removable g) 0 (edges g) r.
Proof.
  intros Hwf Hne. unfold check_minimality.
  destruct (removable_from_spec g 0 (edges g) Hwf) as (r & Hr & Hp).
  exists r. split; [|done]. destruct (edges g) as [|e es] eqn:He; [done|].
  rewrite Hr. simpl. do 3 f_equal. by destruct r.
Qed.

(** C1.  On a graph with no edge [check_minimality] returns (false, []).
    On a structurally valid graph with at least one edge it returns the
    descriptors, written source "->" target and in edge order, of exactly
    the edges that are redundant: those for which the graph with that edge
    omitted, all other edges kept, still has every final claim reachable
    and every supports edge from an evidence node to a claim node
    classified as supported; and it reports the graph minimal exactly when
    that list is empty.  [Redundant], [omit_edge], [FinalClaim] and
    [descriptor] are stated apart from the code. *)
Theorem check_minimality_spec (g : EvidenceGraph) :
  (edges g = [] → check_minimality g = Ok (false, [])) ∧
  (structurally_valid g → edges g ≠ [] →
   ∃ is_minimal removable,
     check_minimality g = Ok (is_minimal, removable) ∧
     Picks (Redundant g) 0 (edges g) removable ∧
     (is_minimal = true ↔ removable = [])).
Proof.
  split.
  - intros He. unfold check_minimality. by rewrite He.
  - intros [Hwf _]%structurally_valid_inv Hne.
    destruct (check_minimality_picks g Hwf Hne) as (r & Hr & Hp).
    exists (bool_decide (r = [])), r. split_and!; [done| |].
    + apply (Picks_iff (Removable g)); [|done].
      intros j. symmetry. apply Redundant_Removable.
    + apply bool_decide_eq_true.
Qed.

(** *** Edges the traversal does not follow *)

Lemma elem_of_delete_ne {A} (l : list A) i x y :
  x ∈ l → l !! i = Some y → x ≠ y → x ∈ delete i l.
Proof.
  revert i. induction l as [|a l IH]; intros [|i] Hx Hi Hne; simplify_eq/=.
  - by apply elem_of_cons in Hx as [?|?].
  - apply elem_of_cons in Hx as [->|Hx]; [by left|]. right. by eapply IH.
Qed.

Lemma Reachable_without g i e k :
  edges g !! i = Some e → Edge.type e ∉ followed →
  Reachable g k → Reachable (_graph_without_edge g i) k.
Proof.
  intros Hi Hty. induction 1 as [n Hn Hs|e' _ IH He' Hf].
  - by apply reach_seed.
  - apply reach_step; [done| |done]. simpl.
    eapply elem_of_delete_ne; [done..|]. intros ->. done.
Qed.

Lemma forallb_filter_delete {A} (p : A → bool) (Q : A → Prop)
    `{∀ x, Decision (Q x)} (l : list A) i e :
  l !! i = Some e → p e = true →
  forallb p (filter Q (delete i l)) = forallb p (filter Q l).
Proof.
  revert i. induction l as [|a l IH]; intros [|i] Hi Hp; simplify_eq/=.
  - rewrite filter_cons. case_decide; [|done]. simpl. by rewrite Hp.
  - rewrite !filter_cons. case_decide; simpl; by erewrite IH.
Qed.

Lemma final_claims_without g i e c :
  edges g !! i = Some e → Edge.type e ≠ "derives"%string →
  c ∈ final_claims (_graph_without_edge g i) → c ∈ final_claims g.
Proof.
  intros Hi Hty. unfold final_claims. rewrite !list_elem_of_filter.
  intros [Hfinal Hc]. split; [|done]. rewrite <-Hfinal.
  unfold is_final_claim, incoming. simpl. symmetry.
  eapply forallb_filter_delete; [done|]. by apply bool_decide_eq_true.
Qed.

Lemma SupportsHold_without g i :
  SupportsHold g → SupportsHold (_graph_without_edge g i).
Proof.
  intros Hall e src tgt He. apply Hall.
  by apply (list_subseteq_delete i (edges g)).
Qed.

Lemma structurally_valid_Connected g : structurally_valid g → Connected g.
Proof.
  intros [_ Hc]%structurally_valid_inv.
  unfold Connected. by apply (proj1 (validate_connectivity_spec g true Hc)).
Qed.

Lemma refutes_not_followed : "refutes"%string ∉ followed.
Proof. by apply (bool_decide_eq_false_1 ("refutes"%string ∈ followed)). Qed.

(** C9.  In a structurally valid graph all of whose supports edges from
    evidence nodes to claim nodes classify as supported, every refutes edge
    is among the removable edges that [check_minimality] reports, and the
    graph is reported not minimal. *)
Theorem refutes_edge_removable (g : EvidenceGraph) (i : nat) (e : Edge.t) :
  structurally_valid g → SupportsHold g →
  edges g !! i = Some e → Edge.type e = "refutes"%string →
  ∃ removable,
    check_minimality g = Ok (false, removable) ∧ describe e ∈ removable.
Proof.
  intros Hvalid Hsup Hi Hty.
  pose proof (structurally_valid_Connected g Hvalid) as Hconn.
  apply structurally_valid_inv in Hvalid as [Hwf _].
  destruct (check_minimality_picks g Hwf) as (r & Hr & Hp).
  { intros Hnil. by rewrite Hnil in Hi. }
  assert (Removable g i) as Hrem.
  { split; [|by apply SupportsHold_without].
    intros c Hc. eapply Reachable_without;
      [done|rewrite Hty; apply refutes_not_followed|].
    apply Hconn. eapply final_claims_without; [done| |done]. by rewrite Hty. }
  assert (describe e ∈ r) as Hin by (by eapply (Picks_elem_of _ 0)).
  exists r. split; [|done]. rewrite Hr. do 2 f_equal.
  apply bool_decide_eq_false. intros ->. by apply not_elem_of_nil in Hin.
Qed.

(** *** One claim, one or two sources of evidence *)

Definition link (src tgt : Node.t) : Edge.t :=
  Edge.mk (Node.id src) (Node.id tgt) "supports".

Definition single (c e1 : Node.t) : EvidenceGraph :=
  mkGraph [c; e1] [link e1 c].

Definition double (c e1 e2 : Node.t) : EvidenceGraph :=
  mkGraph [c; e1; e2] [link e1 c; link e2 c].

Lemma claim_not_seed : "claim"%string ∉ seed_types.
Proof. by apply (bool_decide_eq_false_1 ("claim"%string ∈ seed_types)). Qed.

Lemma evidence_seed : "evidence"%string ∈ seed_types.
Proof. by apply (bool_decide_eq_true_1 ("evidence"%string ∈ seed_types)). Qed.

Lemma supports_followed : "supports"%string ∈ followed.
Proof. by apply (bool_decide_eq_true_1 ("supports"%string ∈ followed)). Qed.

Lemma Picks_nil_inv P i r : Picks P i [] r → r = [].
Proof. by inversion 1. Qed.

Lemma Picks_take_inv P i e es r :
  Picks P i (e :: es) r → P i → ∃ r', r = describe e :: r' ∧ Picks P (S i) es r'.
Proof. inversion 1; subst; [eauto|done]. Qed.

Lemma Picks_skip_inv P i e es r :
  Picks P i (e :: es) r → ¬ P i → Picks P (S i) es r.
Proof. by inversion 1; subst. Qed.

Section sources.
Context (c e1 e2 : Node.t).
Context (Hc : Node.type c = "claim"%string).
Context (He1 : Node.type e1 = "evidence"%string).
Context (He2 : Node.type e2 = "evidence"%string).
Context (Hids : NoDup [Node.id c; Node.id e1; Node.id e2]).

Lemma ids_distinct :
  Node.id c ≠ Node.id e1 ∧ Node.id c ≠ Node.id e2 ∧ Node.id e1 ≠ Node.id e2.
Proof.
  apply NoDup_cons in Hids as [H1 [H2 _]%NoDup_cons].
  rewrite !elem_of_cons in H1. rewrite elem_of_cons in H2.
  split_and!; intros Heq; [apply H1|apply H1|apply H2]; rewrite Heq; auto.
Qed.

Lemma single_WellFormed : WellFormed (single c e1).
Proof.
  destruct ids_distinct as (? & ? & ?). split; simpl.
  - apply NoDup_cons. split; [by intros ?%list_elem_of_singleton|].
    apply NoDup_singleton.
  - intros e ->%list_elem_of_singleton. simpl. right. by left.
  - intros e ->%list_elem_of_singleton. simpl. by left.
Qed.

Lemma double_WellFormed : WellFormed (double c e1 e2).
Proof.
  split; simpl; [done|..]; intros e [-> | ->%list_elem_of_singleton]%elem_of_cons;
    simpl; rewrite !elem_of_cons; auto.
Qed.

(** Without its edge the claim is cut off from the evidence. *)
Lemma single_not_Removable : ¬ Removable (single c e1) 0.
Proof.
  destruct ids_distinct as (Hne & _ & _).
  intros [Hconn _].
  assert (Reachable (mkGraph [c; e1] []) (Node.id c)) as Hr.
  { apply Hconn. unfold final_claims, claims. simpl.
    apply list_elem_of_filter. split; [done|].
    apply list_elem_of_filter. split; [done|by left]. }
  inversion Hr as [n Hn Hs Hk|e _ He _ Hk]; simpl in *.
  - apply elem_of_cons in Hn as [-> | ->%list_elem_of_singleton].
    + rewrite Hc in Hs. by apply claim_not_seed.
    + congruence.
  - by apply not_elem_of_nil in He.
Qed.

Lemma claims_double es c' :
  c' ∈ final_claims (mkGraph [c; e1; e2] es) → c' = c.
Proof.
  unfold final_claims, claims. simpl.
  intros [_ [Hty Hin]%list_elem_of_filter]%list_elem_of_filter.
  rewrite !elem_of_cons in Hin.
  destruct Hin as [?|[-> |[-> |?%not_elem_of_nil]]]; [done|congruence..|done].
Qed.

(** Omitting one of two edges leaves the claim backed by the other
    source. *)
Lemma other_source_suffices (e : Node.t) :
  e ∈ [e1; e2] → Supports e c →
  Connected (mkGraph [c; e1; e2] [link e c]) ∧
  SupportsHold (mkGraph [c; e1; e2] [link e c]).
Proof.
  intros He Hsup.
  assert (e ∈ [c; e1; e2]) as Hin by (by right).
  assert (Node.type e = "evidence"%string) as Hty.
  { apply elem_of_cons in He as [-> | ->%list_elem_of_singleton]; done. }
  split.
  - intros c' ->%claims_double.
    apply (reach_step _ (link e c)); simpl.
    + apply reach_seed; [done|]. rewrite Hty. apply evidence_seed.
    + by left.
    + apply supports_followed.
  - intros ed src tgt ->%list_elem_of_singleton _ Hs1 Hs2 _ Ht1 Ht2 _.
    simpl in *.
    assert (src = e) as -> by (by apply (node_of_id [c; e1; e2])).
    assert (tgt = c) as ->; [|done].
    apply (node_of_id [c; e1; e2]); [done..|by left|done].
Qed.

(** C7, as amended.  One claim node and one evidence node with distinct
    ids, joined by one supports edge, are reported minimal with nothing
    removable.  With a second evidence node and its supports edge to the
    same claim, the graph is reported not minimal and both edges are listed,
    provided both spans classify as supported against the claim text. *)
Theorem second_source_not_minimal :
  check_minimality (single c e1) = Ok (true, []) ∧
  (Supports e1 c → Supports e2 c →
   check_minimality (double c e1 e2)
   = Ok (false, [describe (link e1 c); describe (link e2 c)])).
Proof.
  split; [|intros Hs1 Hs2].
  - destruct (check_minimality_picks (single c e1) single_WellFormed)
      as (r & -> & Hp); [done|].
    change (edges (single c e1)) with [link e1 c] in Hp.
    pose proof (Picks_skip_inv _ _ _ _ _ Hp single_not_Removable) as Hp'.
    by apply Picks_nil_inv in Hp' as ->.
  - destruct (check_minimality_picks (double c e1 e2) double_WellFormed)
      as (r & -> & Hp); [done|].
    change (edges (double c e1 e2)) with [link e1 c; link e2 c] in Hp.
    destruct (Picks_take_inv _ _ _ _ _ Hp) as (r1 & -> & Hp1).
    { apply (other_source_suffices e2); [|done]. right. by left. }
    destruct (Picks_take_inv _ _ _ _ _ Hp1) as (r2 & -> & Hp2).
    { apply (other_source_suffices e1); [|done]. by left. }
    by apply Picks_nil_inv in Hp2 as ->.
Qed.

End sources.

(** *** Worked graphs *)

Local Open Scope string_scope.

Definition evidence_node (id span : string) : Node.t :=
  Node.mk id "evidence" None (Some "doc") (Some span)
          (Some (Sha256.sha256_hex span)) None None None None None.

Definition claim_node (id text : string) : Node.t :=
  Node.mk id "claim" (Some text) None None None None None None None None.

Definition round_c : Node.t := claim_node "c1" "Earth is round".
Definition round_e1 : Node.t := evidence_node "e1" "Earth is round".
Definition round_e2 : Node.t := evidence_node "e2" "The Earth is round".

Lemma check_minimality_spec_witness :
  check_minimality (mkGraph [] []) = Ok (false, []) ∧
  ∃ is_minimal removable,
    check_minimality (double round_c round_e1 round_e2) = Ok (is_minimal, removable) ∧
    Picks (Redundant (double round_c round_e1 round_e2)) 0
          (edges (double round_c round_e1 round_e2)) removable ∧
    (is_minimal = true ↔ removable = []).
Proof.
  split.
  - apply (proj1 (check_minimality_spec (mkGraph [] []))). reflexivity.
  - apply (proj2 (check_minimality_spec (double round_c round_e1 round_e2))).
    + vm_compute. reflexivity.
    + discriminate.
Defined.

Lemma second_source_not_minimal_witness :
  check_minimality (single round_c round_e1) = Ok (true, []) ∧
  check_minimality (double round_c round_e1 round_e2)
  = Ok (false, ["e1->c1"; "e2->c1"]).
Proof.
  assert (NoDup [Node.id round_c; Node.id round_e1; Node.id round_e2]) as Hids.
  { apply (bool_decide_unpack _). vm_compute. exact I. }
  destruct (second_source_not_minimal round_c round_e1 round_e2
              eq_refl eq_refl eq_refl Hids) as [Hsingle Hdouble].
  split; [exact Hsingle|].
  apply Hdouble; vm_compute; reflexivity.
Defined.

(** A claim that carries a negation is contradicted by its own text:
    "not a" occurs in it and "a" is one of its tokens. *)
Definition pluto_c : Node.t := claim_node "c1" "Pluto is not a planet".
Definition pluto_e1 : Node.t := evidence_node "e1" "Pluto is not a planet".
Definition pluto_e2 : Node.t := evidence_node "e2" "Pluto is not a planet".

(** C7, as stated, fails: both evidence spans equal the claim text, yet the
    graph with the two supports edges is reported minimal and no edge is
    listed as removable. *)
Lemma second_source_still_minimal :
  Node.span pluto_e1 = Node.text pluto_c ∧
  Node.span pluto_e2 = Node.text pluto_c ∧
  validate_graph (double pluto_c pluto_e1 pluto_e2) = Ok [] ∧
  check_minimality (single pluto_c pluto_e1) = Ok (true, []) ∧
  check_minimality (double pluto_c pluto_e1 pluto_e2) = Ok (true, []).
Proof. vm_compute. by split_and!. Qed.

(** A refutes edge beside a supporting one. *)
Definition disputed : EvidenceGraph :=
  mkGraph [round_c; round_e1; round_e2]
          [link round_e1 round_c; Edge.mk "e2" "c1" "refutes"].

Lemma refutes_edge_removable_witness :
  ∃ removable,
    check_minimality disputed = Ok (false, removable) ∧
    describe (Edge.mk "e2" "c1" "refutes") ∈ removable.
Proof.
  apply (refutes_edge_removable disputed 1).
  - vm_compute. reflexivity.
  - apply supports_valid_spec.
    + apply structurally_valid_inv. vm_compute. reflexivity.
    + vm_compute. reflexivity.
  - reflexivity.
  - reflexivity.
Defined.

End MinimalityFacts.

(** ** Structural validation *)

Module ValidateFacts.
Import Schema Reach Valid.
Local Open Scope string_scope.

(** When [validate_graph] returns, its list holds the duplicate-id
    violation of a graph with a repeated id and one violation for every
    dangling end of an edge: no violation hides another. *)
Lemma validate_graph_collects g errors :
  validate_graph g = Ok errors →
  (¬ NoDup (map Node.id (nodes g)) → "Duplicate node identifiers found" ∈ errors) ∧
  (∀ e, e ∈ edges g → Edge.source e ∉ map Node.id (nodes g) →
        "Edge source " ++ Edge.source e ++ " does not exist" ∈ errors) ∧
  (∀ e, e ∈ edges g → Edge.target e ∉ map Node.id (nodes g) →
        "Edge target " ++ Edge.target e ++ " does not exist" ∈ errors).
Proof.
  unfold validate_graph. cbv zeta.
  destruct (validate_connectivity g) as [connected|]; [|done]. simpl.
  set (dup := if bool_decide _ then _ else _).
  set (dangling := flat_map _ _).
  intros [= <-].
  assert (∀ (last : list string) x, x ∈ (dup ++ dangling)%list →
               x ∈ (if connected then (dup ++ dangling)%list
                    else ((dup ++ dangling) ++ last)%list)) as Hin.
  { intros last x Hx. destruct connected; [done|]. apply elem_of_app. by left. }
  split_and!.
  - intros Hdup. apply Hin, elem_of_app. left. unfold dup.
    rewrite bool_decide_eq_true_2; [by left|].
    intros Hsz. apply Hdup, size_list_to_set_NoDup.
    unfold node_ids in Hsz. by rewrite length_map.
  - intros e He Hsrc. apply Hin, elem_of_app. right. unfold dangling.
    apply list_elem_of_In, in_flat_map. exists e. rewrite <-!list_elem_of_In.
    split; [done|]. unfold edge_errors. cbv zeta. apply elem_of_app. left.
    rewrite bool_decide_eq_true_2; [by left|].
    unfold node_ids. by rewrite elem_of_list_to_set.
  - intros e He Htgt. apply Hin, elem_of_app. right. unfold dangling.
    apply list_elem_of_In, in_flat_map. exists e. rewrite <-!list_elem_of_In.
    split; [done|]. unfold edge_errors. cbv zeta. apply elem_of_app. right.
    rewrite bool_decide_eq_true_2; [by left|].
    unfold node_ids. by rewrite elem_of_list_to_set.
Qed.

Lemma validate_graph_fuel g : validate_graph g ≠ Raise OutOfFuel.
Proof.
  unfold validate_graph. pose proof (validate_connectivity_fuel g) as Hf.
  destruct (validate_connectivity g); simpl; congruence.
Qed.

(** It returns whenever every followed edge ends at a node. *)
Lemma validate_graph_returns g :
  targets_exist g → ∃ errors, validate_graph g = Ok errors.
Proof.
  intros [b Hb]%validate_connectivity_total.
  unfold validate_graph. rewrite Hb. simpl. eauto.
Qed.

(** Two evidence nodes with the same id and a supports edge from them to an
    id that no node has. *)
Definition twin_ghost : EvidenceGraph :=
  mkGraph [MinimalityFacts.evidence_node "e1" "Earth is round";
           MinimalityFacts.evidence_node "e1" "The Earth is round"]
          [Edge.mk "e1" "ghost" "supports"].

Definition twin_ghost_raw : Compiler.Raw :=
  Compiler.mkRaw
    (Some [ {[ "id" := "e1"; "type" := "evidence"; "span" := "Earth is round" ]};
            {[ "id" := "e1"; "type" := "evidence"; "span" := "The Earth is round" ]} ])
    (Some [ {[ "source" := "e1"; "target" := "ghost"; "type" := "supports" ]} ]).

(** C5 fails on the code.  The graph has a repeated node id and a dangling
    edge; [validate_graph] appends both violations and then raises
    [KeyError] from the reachability traversal, which looks the missing
    target up in its dictionary; [compile_graph] lets that exception out
    in place of the [ValueError] that carries the violations. *)
Theorem validate_graph_raises_on_dangling_target :
  ¬ NoDup (map Node.id (nodes twin_ghost)) ∧
  (∃ e, e ∈ edges twin_ghost ∧ Edge.target e ∉ map Node.id (nodes twin_ghost)) ∧
  validate_graph twin_ghost = Raise (KeyError "ghost") ∧
  Compiler.compile_graph twin_ghost_raw = Raise (KeyError "ghost").
Proof.
  split_and!.
  - intros Hnd. by apply (bool_decide_pack _) in Hnd.
  - exists (Edge.mk "e1" "ghost" "supports"). split; [by left|].
    by apply (bool_decide_eq_false_1 _).
  - by vm_compute.
  - by vm_compute.
Qed.

End ValidateFacts.


(** ** The compiler *)

Module CompilerFacts.
Import Schema Compiler Valid.

(** A boolean [<] that is a strict total order. *)
Class StrictTotal {K : Type} (lt : K → K → bool) : Prop := {
  lt_irrefl a : lt a a = false;
  lt_trans a b c : lt a b = true → lt b c = true → lt a c = true;
  lt_total a b : lt a b = false → lt b a = false → a = b
}.

Section sorting.
Context {A K : Type} (key : A → K) (lt : K → K → bool) `{!StrictTotal lt}.

(** [a] may stand before [b]: the key of [b] is not below the key of [a]. *)
Definition key_le (a b : A) : Prop := lt (key b) (key a) = false.

Lemma lt_asym a b : lt a b = true → lt b a = false.
Proof.
  intros Hab. destruct (lt b a) eqn:Hba; [|done].
  pose proof (lt_trans _ _ _ Hab Hba) as Haa. by rewrite lt_irrefl in Haa.
Qed.

#[local] Instance key_le_trans : Transitive key_le.
Proof.
  intros a b c Hab Hbc. unfold key_le in *.
  destruct (lt (key c) (key a)) eqn:Hca; [|done].
  destruct (lt (key a) (key b)) eqn:Hlt.
  - by rewrite (lt_trans _ _ _ Hca Hlt) in Hbc.
  - pose proof (lt_total _ _ Hlt Hab) as Heq. rewrite Heq in Hca. congruence.
Qed.

Lemma insert_sorted_Permutation x l : insert_sorted key lt x l ≡ₚ x :: l.
Proof.
  induction l as [|y l IH]; simpl; [done|].
  destruct (lt (key y) (key x)); [|done]. rewrite IH. apply Permutation_swap.
Qed.

Lemma sort_by_Permutation l : sort_by key lt l ≡ₚ l.
Proof.
  induction l as [|x l IH]; simpl; [done|].
  by rewrite insert_sorted_Permutation, IH.
Qed.

Lemma insert_sorted_HdRel a x l :
  key_le a x → HdRel key_le a l → HdRel key_le a (insert_sorted key lt x l).
Proof.
  intros Hax Hal. destruct l as [|y l]; simpl; [by constructor|].
  destruct (lt (key y) (key x)); constructor; [|done]. by inversion Hal.
Qed.

Lemma insert_sorted_Sorted x l :
  Sorted key_le l → Sorted key_le (insert_sorted key lt x l).
Proof.
  induction 1 as [|y l Hl IH Hy]; simpl; [by repeat constructor|].
  destruct (lt (key y) (key x)) eqn:Hyx.
  - constructor; [done|]. apply insert_sorted_HdRel; [|done].
    by apply lt_asym.
  - constructor; [by constructor|]. by constructor.
Qed.

Lemma sort_by_Sorted l : Sorted key_le (sort_by key lt l).
Proof.
  induction l as [|x l IH]; simpl; [constructor|]. by apply insert_sorted_Sorted.
Qed.

(** Two lists with the same elements, no two of which share a key, sort to
    the same list. *)
Lemma sort_by_unique l1 l2 :
  l1 ≡ₚ l2 →
  (∀ x y, x ∈ l1 → y ∈ l1 → key x = key y → x = y) →
  sort_by key lt l1 = sort_by key lt l2.
Proof.
  intros Hperm Hinj.
  apply (Sorted_unique_strong key_le); [|apply sort_by_Sorted..|].
  - intros x y Hx Hy Hxy Hyx. apply Hinj.
    + by rewrite sort_by_Permutation in Hx.
    + by rewrite sort_by_Permutation, <-Hperm in Hy.
    + by apply lt_total.
  - by rewrite !sort_by_Permutation.
Qed.

End sorting.

(** *** The order on strings and on edge keys *)

Lemma compare_refl (s : string) : String.compare s s = Eq.
Proof.
  pose proof (String.compare_antisym s s) as H.
  by destruct (String.compare s s).
Qed.

Lemma compare_Lt_trans (a b c : string) :
  String.compare a b = Lt → String.compare b c = Lt → String.compare a c = Lt.
Proof.
  revert b c. induction a as [|x a IH]; intros [|y b] [|z c]; simpl; try done.
  unfold Ascii.compare.
  destruct (N.compare_spec (N_of_ascii x) (N_of_ascii y)) as [Hxy|Hxy|Hxy];
    destruct (N.compare_spec (N_of_ascii y) (N_of_ascii z)) as [Hyz|Hyz|Hyz];
    try done.
  - rewrite Hxy, Hyz, N.compare_refl. apply IH.
  - intros _ _. rewrite Hxy. by rewrite (proj2 (N.compare_lt_iff _ _) Hyz).
  - intros _ _. rewrite <-Hyz. by rewrite (proj2 (N.compare_lt_iff _ _) Hxy).
  - intros _ _. assert (N_of_ascii x < N_of_ascii z)%N as Hxz by lia.
    by rewrite (proj2 (N.compare_lt_iff _ _) Hxz).
Qed.

#[global] Instance string_ltb_StrictTotal : StrictTotal String.ltb.
Proof.
  split; unfold String.ltb.
  - intros a. by rewrite compare_refl.
  - intros a b c Hab Hbc.
    destruct (String.compare a b) eqn:Eab; try done.
    destruct (String.compare b c) eqn:Ebc; try done.
    by rewrite (compare_Lt_trans _ _ _ Eab Ebc).
  - intros a b Hab Hba. apply String.compare_eq_iff.
    rewrite String.compare_antisym in Hba.
    by destruct (String.compare a b).
Qed.

#[global] Instance tuple_ltb_StrictTotal : StrictTotal tuple_ltb.
Proof.
  pose proof string_ltb_StrictTotal as Hs.
  split.
  - intros [[a1 a2] a3]. simpl.
    rewrite !bool_decide_eq_false_2 by (by intros ?). apply lt_irrefl.
  - intros [[a1 a2] a3] [[b1 b2] b3] [[c1 c2] c3]. simpl.
    repeat case_bool_decide; subst; intros Hab Hbc;
      try done; try (by eapply lt_trans);
      try (by rewrite lt_irrefl in Hab); try (by rewrite lt_irrefl in Hbc);
      try (by rewrite (lt_asym _ _ _ Hab) in Hbc).
  - intros [[a1 a2] a3] [[b1 b2] b3]. simpl.
    repeat case_bool_decide; subst; intros Hab Hba;
      try done; try (by destruct (lt_total _ _ Hab Hba));
      by rewrite (lt_total _ _ Hab Hba).
Qed.

Lemma edge_key_inj (e e' : Edge.t) : edge_key e = edge_key e' → e = e'.
Proof. destruct e, e'. unfold edge_key. simpl. congruence. Qed.

(** *** Building the typed lists *)

Lemma build_cons_Ok {A B} (f : A → res B) x l ys :
  build f (x :: l) = Ok ys ↔
  ∃ y ys', f x = Ok y ∧ build f l = Ok ys' ∧ ys = y :: ys'.
Proof.
  simpl. destruct (f x) as [y|]; simpl.
  - destruct (build f l) as [ys'|]; simpl.
    + split; [intros [= <-]; eauto|]. by intros (? & ? & [= <-] & [= <-] & ->).
    + split; [done|]. by intros (? & ? & _ & ? & _).
  - split; [done|]. by intros (? & ? & ? & _).
Qed.

Lemma build_Permutation {A B} (f : A → res B) l1 l2 ys1 :
  l1 ≡ₚ l2 → build f l1 = Ok ys1 → ∃ ys2, build f l2 = Ok ys2 ∧ ys1 ≡ₚ ys2.
Proof.
  intros Hperm. revert ys1.
  induction Hperm as [|x l1 l2 _ IH|x y l|l1 l2 l3 _ IH1 _ IH2]; intros ys1.
  - intros [= <-]. by exists [].
  - intros (y & ys & Hx & Hl & ->)%build_cons_Ok.
    destruct (IH _ Hl) as (ys2 & Hl2 & Hp). exists (y :: ys2).
    split; [|by constructor]. apply build_cons_Ok. eauto.
  - intros (b & ys & Hy & (a & ys' & Hx & Hl & ->)%build_cons_Ok & ->)%build_cons_Ok.
    exists (a :: b :: ys'). split; [|apply Permutation_swap].
    apply build_cons_Ok. exists a, (b :: ys'). split_and!; [done| |done].
    apply build_cons_Ok. eauto.
  - intros Hl1. destruct (IH1 _ Hl1) as (ys2 & Hl2 & Hp12).
    destruct (IH2 _ Hl2) as (ys3 & Hl3 & Hp23). exists ys3.
    split; [done|]. by etrans.
Qed.

Lemma build_ext {A B} (f : A → res B) (R : A → A → Prop) l l' :
  (∀ x x', R x x' → f x' = f x) → Forall2 R l l' → build f l' = build f l.
Proof.
  intros Hf. induction 1 as [|x x' l l' Hx _ IH]; simpl; [done|].
  by rewrite (Hf _ _ Hx), IH.
Qed.

(** [compile_graph] succeeds exactly with the sorted typed lists of a
    structurally valid graph. *)
Lemma compile_graph_Ok raw g :
  compile_graph raw = Ok g ↔
  ∃ ns es,
    build (λ nd, Node_of_kwargs (keep NODE_FIELDS nd)) (default [] (nodes_data raw)) = Ok ns ∧
    build (λ ed, Edge_of_kwargs (keep EDGE_FIELDS ed)) (default [] (edges_data raw)) = Ok es ∧
    g = mkGraph (sort_by Node.id String.ltb ns) (sort_by edge_key tuple_ltb es) ∧
    structurally_valid g.
Proof.
  unfold compile_graph, structurally_valid. cbv zeta.
  destruct (build _ (default [] (nodes_data raw))) as [ns|]; simpl.
  2:{ split; [done|]. by intros (? & ? & ? & _). }
  destruct (build _ (default [] (edges_data raw))) as [es|]; simpl.
  2:{ split; [done|]. by intros (? & ? & _ & ? & _). }
  destruct (validate_graph _) as [[|err errs]|] eqn:Hv; simpl.
  - split; [intros [= <-]; eauto 6|]. by intros (? & ? & [= <-] & [= <-] & -> & _).
  - split; [done|]. intros (? & ? & [= <-] & [= <-] & -> & Hg). congruence.
  - split; [done|]. intros (? & ? & [= <-] & [= <-] & -> & Hg). congruence.
Qed.

(** C6.  Two raw inputs whose node lists and whose edge lists are
    permutations of each other compile to the same graph, hence to the same
    serialized form: whenever one compiles, so does the other, with the
    nodes in the order of their ids and the edges in the lexicographic order
    of (source, target, type). *)
Theorem compile_graph_order_independent (raw1 raw2 : Raw) (g : EvidenceGraph) :
  default [] (nodes_data raw1) ≡ₚ default [] (nodes_data raw2) →
  default [] (edges_data raw1) ≡ₚ default [] (edges_data raw2) →
  compile_graph raw1 = Ok g →
  (∃ g2, compile_graph raw2 = Ok g2 ∧ g2 = g ∧ to_dict g2 = to_dict g) ∧
  Sorted (key_le Node.id String.ltb) (nodes g) ∧
  Sorted (key_le edge_key tuple_ltb) (edges g).
Proof.
  intros Hns Hes (ns1 & es1 & Hb1 & Hb2 & -> & Hvalid)%compile_graph_Ok.
  split; [|split; apply sort_by_Sorted; apply _].
  eexists. split; [|done].
  destruct (build_Permutation _ _ _ _ Hns Hb1) as (ns2 & Hb1' & Hpn).
  destruct (build_Permutation _ _ _ _ Hes Hb2) as (es2 & Hb2' & Hpe).
  assert (sort_by Node.id String.ltb ns1 = sort_by Node.id String.ltb ns2) as Hsn.
  { apply sort_by_unique; [apply _|done|].
    pose proof Hvalid as [[Hnd _ _] _]%structurally_valid_inv. simpl in Hnd.
    intros x y Hx Hy. apply (node_of_id _ _ _ Hnd);
      by rewrite sort_by_Permutation. }
  assert (sort_by edge_key tuple_ltb es1 = sort_by edge_key tuple_ltb es2) as Hse.
  { apply sort_by_unique; [apply _|done|]. intros x y _ _. apply edge_key_inj. }
  apply compile_graph_Ok. exists ns2, es2. by rewrite <-Hsn, <-Hse.
Qed.

(** *** Unknown keys *)

(** [d'] is [d] with further keys, none of them in [fields]. *)
Definition adds_unknown (fields : list string) (d d' : record) : Prop :=
  ∃ extra : record,
    d' = extra ∪ d ∧ ∀ k, k ∈ fields → extra !! k = None.

Lemma keep_adds_unknown fields d d' :
  adds_unknown fields d d' → keep fields d' = keep fields d.
Proof.
  intros (extra & -> & Hextra). unfold keep. apply map_eq. intros k.
  apply option_eq. intros v. rewrite !map_lookup_filter_Some. simpl.
  split; intros [Hk Hin]; (split; [|done]).
  - by rewrite lookup_union_r in Hk by (by apply Hextra).
  - by rewrite lookup_union_r by (by apply Hextra).
Qed.

(** C10.  Keys other than source, target and type added to edge records,
    like keys other than the node fields added to node records, do not
    change what [compile_graph] returns: the graph, or the exception. *)
Theorem unknown_edge_keys_dropped (raw raw' : Raw) :
  Forall2 (adds_unknown NODE_FIELDS)
          (default [] (nodes_data raw)) (default [] (nodes_data raw')) →
  Forall2 (adds_unknown EDGE_FIELDS)
          (default [] (edges_data raw)) (default [] (edges_data raw')) →
  compile_graph raw' = compile_graph raw.
Proof.
  intros Hn He. unfold compile_graph. cbv zeta.
  rewrite (build_ext _ (adds_unknown NODE_FIELDS) _ _
             (λ x x' Hx, f_equal Node_of_kwargs (keep_adds_unknown _ x x' Hx)) Hn).
  rewrite (build_ext _ (adds_unknown EDGE_FIELDS) _ _
             (λ x x' Hx, f_equal Edge_of_kwargs (keep_adds_unknown _ x x' Hx)) He).
  done.
Qed.

Lemma not_field (k : string) (fields : list string) :
  bool_decide (k ∈ fields) = false → k ∈ fields → False.
Proof. intros Hk ?. by apply bool_decide_eq_false in Hk. Qed.

Lemma adds_nothing fields d : adds_unknown fields d d.
Proof. exists ∅. split; [by rewrite (left_id_L ∅ (∪))|]. intros k _. apply lookup_empty. Qed.

(** *** Worked inputs *)

Local Open Scope string_scope.

Definition rec_c1 : record :=
  {[ "id" := "c1"; "type" := "claim"; "text" := "Earth is round" ]}.
Definition rec_e1 : record :=
  {[ "id" := "e1"; "type" := "evidence"; "url" := "doc1";
     "span" := "Earth is round" ]}.
Definition rec_e2 : record :=
  {[ "id" := "e2"; "type" := "evidence"; "url" := "doc2";
     "span" := "The Earth is round" ]}.
Definition rec_e1_c1 : record :=
  {[ "source" := "e1"; "target" := "c1"; "type" := "supports" ]}.
Definition rec_e2_c1 : record :=
  {[ "source" := "e2"; "target" := "c1"; "type" := "supports" ]}.

Definition raw_a : Raw :=
  mkRaw (Some [rec_c1; rec_e1; rec_e2]) (Some [rec_e2_c1; rec_e1_c1]).
Definition raw_b : Raw :=
  mkRaw (Some [rec_e2; rec_c1; rec_e1]) (Some [rec_e1_c1; rec_e2_c1]).
Definition raw_c : Raw :=
  mkRaw (Some [rec_c1; {[ "retrieved" := "2024-05-01" ]} ∪ rec_e1; rec_e2])
        (Some [ {[ "weight" := "0.9" ]} ∪ rec_e2_c1;
                {[ "note" := "added by hand"; "weight" := "0.4" ]} ∪ rec_e1_c1 ]).

Definition compiled_a : EvidenceGraph :=
  mkGraph
    [ Node.mk "c1" "claim" (Some "Earth is round") None None None None None None None None;
      Node.mk "e1" "evidence" None (Some "doc1") (Some "Earth is round") None None None None None None;
      Node.mk "e2" "evidence" None (Some "doc2") (Some "The Earth is round") None None None None None None ]
    [ Edge.mk "e1" "c1" "supports"; Edge.mk "e2" "c1" "supports" ].

Lemma compile_graph_order_independent_witness :
  (∃ g2, compile_graph raw_b = Ok g2 ∧ g2 = compiled_a ∧
         to_dict g2 = to_dict compiled_a) ∧
  Sorted (key_le Node.id String.ltb) (nodes compiled_a) ∧
  Sorted (key_le edge_key tuple_ltb) (edges compiled_a).
Proof.
  apply (compile_graph_order_independent raw_a raw_b compiled_a).
  - simpl. symmetry. apply (Permutation_cons_append [rec_c1; rec_e1] rec_e2).
  - simpl. apply Permutation_swap.
  - vm_compute. reflexivity.
Defined.

Lemma unknown_edge_keys_dropped_witness :
  compile_graph raw_c = compile_graph raw_a ∧ compile_graph raw_a = Ok compiled_a.
Proof.
  split; [|vm_compute; reflexivity].
  apply (unknown_edge_keys_dropped raw_a raw_c).
  - simpl. constructor; [apply adds_nothing|].
    constructor; [|constructor; [apply adds_nothing|constructor]].
    eexists. split; [reflexivity|]. intros k Hk.
    apply lookup_singleton_ne. intros <-.
    exact (False_ind _ (not_field "retrieved" NODE_FIELDS eq_refl Hk)).
  - simpl. constructor; [|constructor; [|constructor]].
    + eexists. split; [reflexivity|]. intros k Hk.
      apply lookup_singleton_ne. intros <-.
      exact (False_ind _ (not_field "weight" EDGE_FIELDS eq_refl Hk)).
    + eexists. split; [reflexivity|]. intros k Hk.
      destruct (decide (k = "note")) as [->|Hnote];
        [exact (False_ind _ (not_field "note" EDGE_FIELDS eq_refl Hk))|].
      rewrite lookup_insert_ne by done.
      apply lookup_singleton_ne. intros <-.
      exact (False_ind _ (not_field "weight" EDGE_FIELDS eq_refl Hk)).
Defined.

End CompilerFacts.

(** ** The hash binding checker *)

Module HashCheckFacts.
Import Schema HashCheck.
Local Open Scope string_scope.











End HashCheckFacts.

(** ** The numeric checker *)

Module NumericFacts.
Import Numeric.
Local Open Scope string_scope.

Section trees.
Context {F : Type} `{PyFloat F}.
Context (ast_parse : string → res (tree (F:=F))).
Context (str_format : string → value (F:=F) → res string).

Definition int_lit (z : Z) : expr (F:=F) := Constant (VInt z).

(** The trees [ast.parse(code, mode="eval")] returns for the texts
    "2+2", "+2", "'4'", "2**3" and "__import__('os')". *)
Definition two_plus_two : tree (F:=F) := Expression (BinOp (int_lit 2) Add (int_lit 2)).
Definition plus_two : tree (F:=F) := Expression (UnaryOp UAdd (int_lit 2)).
Definition quoted_four : tree (F:=F) := Expression (Constant (VStr "4")).
Definition two_pow_three : tree (F:=F) := Expression (BinOp (int_lit 2) Pow (int_lit 3)).
Definition import_os : tree (F:=F) :=
  Expression (Call (Name "__import__") [Constant (VStr "os")]).

(** What the checker gets right: the sum checks against "4" and against
    nothing else, a call is rejected, and so is a text that does not
    parse. *)
Lemma check_parsed_examples :
  check_parsed str_format (Ok two_plus_two) "4" = true ∧
  check_parsed str_format (Ok two_plus_two) "5" = false ∧
  check_parsed str_format (Ok two_plus_two) "4.0" = false ∧
  check_parsed str_format (Ok import_os) "anything" = false ∧
  check_parsed str_format (Raise SyntaxError) "4" = false.
Proof. by split_and!. Qed.

(** C2 fails on the code, in three places.  The text "+2" is accepted and
    evaluates to -2: the operator of a unary node is never looked at, so
    unary plus, [~] and [not] all negate.  The text "'4'" is accepted and
    checks against "4": a constant is returned whatever its type.  The text
    "2**3" is rejected: [Pow] is among the allowed nodes and missing from the
    operator table. *)
Theorem check_numeric_calc_slips :
  ast_parse "+2" = Ok plus_two →
  ast_parse "'4'" = Ok quoted_four →
  ast_parse "2**3" = Ok two_pow_three →
  check_numeric_calc ast_parse str_format "+2" "-2" = true ∧
  check_numeric_calc ast_parse str_format "'4'" "4" = true ∧
  check_numeric_calc ast_parse str_format "2**3" "8" = false.
Proof.
  intros Hplus Hquoted Hpow. unfold check_numeric_calc.
  rewrite Hplus, Hquoted, Hpow. by split_and!.
Qed.

End trees.

(** *** An interpreter for the worked examples

    It has no float, so an operation that would make one raises; it parses
    the texts above, and formats nothing. *)

#[export] Instance no_float : PyFloat Empty_set := {|
  f_of_int _ := Raise OverflowError;
  f_neg x := x;
  f_add x _ := x;
  f_sub x _ := x;
  f_mul x _ := x;
  f_truediv x _ := Ok x;
  f_floordiv x _ := Ok x;
  f_mod x _ := Ok x;
  int_truediv _ _ := Raise OverflowError;
  f_str _ := ""
|}.

Definition parse_table : list (string * tree (F:=Empty_set)) :=
  [ ("2+2", two_plus_two); ("+2", plus_two); ("'4'", quoted_four);
    ("2**3", two_pow_three); ("__import__('os')", import_os) ].

Definition parse_known (code : string) : res (tree (F:=Empty_set)) :=
  match list_find (λ entry, entry.1 = code) parse_table with
  | Some (_, (_, t)) => Ok t
  | None => Raise SyntaxError
  end.

Definition no_format (s : string) (v : value (F:=Empty_set)) : res string :=
  Raise TypeError.

Lemma check_numeric_calc_slips_witness :
  check_numeric_calc parse_known no_format "+2" "-2" = true ∧
  check_numeric_calc parse_known no_format "'4'" "4" = true ∧
  check_numeric_calc parse_known no_format "2**3" "8" = false.
Proof.
  apply (check_numeric_calc_slips parse_known no_format); reflexivity.
Defined.

End NumericFacts.

(** ** The orchestrator *)

Module RunnerFacts.
Import Schema Minimality Runner.
Local Open Scope string_scope.

(** A node without what an entailment node carries. *)
Definition erase (n : Node.t) : Node.t :=
  Node.mk (Node.id n) (Node.type n) (Node.text n) (Node.url n) (Node.span n)
          (Node.hash n) (Node.code n) (Node.result n) None None (Node.lang n).

Definition erase_graph (g : EvidenceGraph) : EvidenceGraph :=
  mkGraph (map erase (nodes g)) (edges g).

Lemma filter_map_erase (P : Node.t → Prop) `{∀ n, Decision (P n)} (ns : list Node.t) :
  (∀ n, P (erase n) ↔ P n) →
  filter P (map erase ns) = map erase (filter P ns).
Proof.
  intros HP. induction ns as [|n ns IH]; [done|].
  cbn [map]. rewrite !filter_cons.
  destruct (decide (P n)) as [Hn|Hn].
  - rewrite decide_True by (by apply HP). cbn [map]. by rewrite IH.
  - rewrite decide_False by (by rewrite HP). done.
Qed.

Lemma foldl_node_map_erase (ns : list Node.t) (m : gmap string Node.t) :
  foldl (λ m n, <[Node.id n := n]> m) (erase <$> m) (map erase ns)
  = erase <$> foldl (λ m n, <[Node.id n := n]> m) m ns.
Proof.
  revert m. induction ns as [|n ns IH]; intros m; [done|].
  cbn [map foldl]. rewrite <-IH. f_equal. by rewrite fmap_insert.
Qed.

Lemma node_map_erase g : node_map (erase_graph g) = erase <$> node_map g.
Proof.
  unfold node_map, erase_graph. simpl.
  by rewrite <-foldl_node_map_erase, fmap_empty.
Qed.

Lemma get_node_erase g k : get_node (erase_graph g) k = erase <$> get_node g k.
Proof. unfold get_node. by rewrite node_map_erase, lookup_fmap. Qed.

Lemma search_edges fuel g g' m st :
  edges g' = edges g → search fuel g' m st = search fuel g m st.
Proof.
  intros He. revert m st. induction fuel as [|fuel IH]; intros m [|cur st]; [done..|].
  simpl. unfold outgoing. rewrite He.
  destruct (visit _ m st) as [[m' st']|]; simpl; [apply IH|done].
Qed.

Lemma seeds_erase g : seeds (erase_graph g) = seeds g.
Proof.
  unfold seeds, erase_graph. simpl. rewrite filter_map_erase by done.
  rewrite <-list_fmap_compose. done.
Qed.

Lemma foldl_unmark_erase (ns : list Node.t) (m : gmap string bool) :
  foldl (λ m n, <[Node.id n := false]> m) m (map erase ns)
  = foldl (λ m n, <[Node.id n := false]> m) m ns.
Proof.
  revert m. induction ns as [|n ns IH]; intros m; [done|]. cbn [map foldl]. apply IH.
Qed.

Lemma reachable_from_evidence_erase g :
  reachable_from_evidence (erase_graph g) = reachable_from_evidence g.
Proof.
  unfold reachable_from_evidence. cbv zeta. rewrite seeds_erase.
  rewrite (search_edges _ g (erase_graph g)) by done.
  simpl. by rewrite length_map, foldl_unmark_erase.
Qed.

Lemma final_claims_erase g :
  final_claims (erase_graph g) = map erase (final_claims g).
Proof.
  unfold final_claims, claims. simpl.
  rewrite (filter_map_erase (λ n, Node.type n = "claim")) by done.
  by rewrite (filter_map_erase (λ c, is_final_claim g c = true)).
Qed.

Lemma validate_connectivity_erase g :
  validate_connectivity (erase_graph g) = validate_connectivity g.
Proof.
  unfold validate_connectivity.
  rewrite reachable_from_evidence_erase, final_claims_erase.
  destruct (reachable_from_evidence g) as [m|]; [|done]. simpl. f_equal.
  induction (final_claims g) as [|c cs IH]; [done|]. simpl. by rewrite IH.
Qed.

Lemma edge_holds_erase g e : edge_holds (erase_graph g) e = edge_holds g e.
Proof.
  unfold edge_holds. rewrite !get_node_erase.
  by destruct (get_node g (Edge.source e)), (get_node g (Edge.target e)).
Qed.

Lemma supports_valid_erase g : _supports_valid (erase_graph g) = _supports_valid g.
Proof.
  unfold _supports_valid. simpl.
  induction (edges g) as [|e es IH]; [done|]. simpl.
  by rewrite edge_holds_erase, IH.
Qed.

Lemma removable_from_erase g i es :
  removable_from (erase_graph g) i es = removable_from g i es.
Proof.
  revert i. induction es as [|e es IH]; intros i; [done|]. simpl.
  change (_graph_without_edge (erase_graph g) i)
    with (erase_graph (_graph_without_edge g i)).
  by rewrite validate_connectivity_erase, supports_valid_erase, IH.
Qed.

Lemma check_minimality_erase g :
  check_minimality (erase_graph g) = check_minimality g.
Proof.
  unfold check_minimality. simpl. by rewrite removable_from_erase.
Qed.

Lemma check_source_binding_erase g :
  HashCheck.check_source_binding (erase_graph g) = HashCheck.check_source_binding g.
Proof.
  unfold HashCheck.check_source_binding. simpl.
  assert (flat_map HashCheck.node_problems (map erase (nodes g))
          = flat_map HashCheck.node_problems (nodes g)) as ->; [|done].
  induction (nodes g) as [|n ns IH]; [done|]. simpl. by rewrite IH.
Qed.

Section verify.
Context {F : Type} `{Numeric.PyFloat F}.
Context (ast_parse : string → res (Numeric.tree (F:=F))).
Context (str_format : string → Numeric.value (F:=F) → res string).

Lemma edge_levels_erase g e : edge_levels (erase_graph g) e = edge_levels g e.
Proof.
  unfold edge_levels. rewrite !get_node_erase.
  by destruct (get_node g (Edge.source e)), (get_node g (Edge.target e)).
Qed.

(** No check reads [premise] or [hypothesis]. *)
Lemma verify_erase g :
  _verify ast_parse str_format (erase_graph g) = _verify ast_parse str_format g.
Proof.
  unfold _verify. rewrite check_source_binding_erase, check_minimality_erase.
  assert (flat_map (edge_levels (erase_graph g)) (edges (erase_graph g))
          = flat_map (edge_levels g) (edges g)) as ->.
  { simpl. induction (edges g) as [|e es IH]; [done|]. simpl.
    by rewrite edge_levels_erase, IH. }
  assert (flat_map (node_numeric ast_parse str_format) (nodes (erase_graph g))
          = flat_map (node_numeric ast_parse str_format) (nodes g)) as ->; [|done].
  simpl. induction (nodes g) as [|n ns IH]; [done|]. simpl. by rewrite IH.
Qed.

(** [n'] is [n], or the entailment node [n] with another premise and
    hypothesis. *)
Definition entailment_variant (n n' : Node.t) : Prop :=
  n' = n ∨
  (Node.type n = "entailment" ∧
   ∃ p h, n' = Node.mk (Node.id n) (Node.type n) (Node.text n) (Node.url n)
                       (Node.span n) (Node.hash n) (Node.code n)
                       (Node.result n) p h (Node.lang n)).

Lemma entailment_variant_erase n n' : entailment_variant n n' → erase n' = erase n.
Proof. by intros [->|(_ & p & h & ->)]. Qed.

(** C8.  Two graphs with the same edges and the same nodes up to the
    premise and hypothesis of entailment nodes get the same verdict and the
    same details from [_verify], or the same exception. *)
Theorem verify_ignores_entailment (g g' : EvidenceGraph) :
  Forall2 entailment_variant (nodes g) (nodes g') → edges g' = edges g →
  _verify ast_parse str_format g' = _verify ast_parse str_format g.
Proof.
  intros Hn He. rewrite <-(verify_erase g), <-(verify_erase g').
  f_equal. unfold erase_graph. rewrite He. f_equal.
  induction Hn as [|n n' ns ns' Hv _ IH]; [done|]. cbn [map].
  by rewrite IH, (entailment_variant_erase _ _ Hv).
Qed.

End verify.

(** *** A worked run *)

#[local] Existing Instance NumericFacts.no_float.

Definition entailment_node (id premise hypothesis : string) : Node.t :=
  Node.mk id "entailment" None None None None None None
          (Some premise) (Some hypothesis) None.

Definition calc_node (id code result : string) : Node.t :=
  Node.mk id "calc" None None None None (Some code) (Some result) None None None.

Definition worked (premise hypothesis : string) : EvidenceGraph :=
  mkGraph [ MinimalityFacts.round_c; MinimalityFacts.round_e1;
            entailment_node "t1" premise hypothesis; calc_node "k1" "2+2" "4" ]
          [ MinimalityFacts.link MinimalityFacts.round_e1 MinimalityFacts.round_c ].

Lemma verify_ignores_entailment_witness :
  _verify NumericFacts.parse_known NumericFacts.no_format (worked "It never rains" "It rains")
  = _verify NumericFacts.parse_known NumericFacts.no_format (worked "Earth is round" "Earth is round").
Proof.
  apply (verify_ignores_entailment NumericFacts.parse_known NumericFacts.no_format
           (worked "Earth is round" "Earth is round")
           (worked "It never rains" "It rains")).
  - simpl.
    constructor; [by left|]. constructor; [by left|].
    constructor; [right; split; [reflexivity|]; by eexists _, _|].
    constructor; [by left|]. constructor.
  - reflexivity.
Defined.

(** The claim "Earth is round" backed by one evidence node with that span
    and its digest passes every check. *)
Lemma verify_worked :
  _verify NumericFacts.parse_known NumericFacts.no_format (worked "Earth is round" "Earth is round")
  = Ok (true,
        mkDetails (true, []) (true, ["supported"]) (true, []) (true, [])).
Proof. by vm_compute. Qed.

End RunnerFacts.

(** ** More on the schema: the traversal and the structural gate *)

Module SchemaExtras.
Import Schema Reach Valid.
Local Open Scope string_scope.

Lemma visit_KeyError out (m : gmap string bool) st e' :
  visit out m st = Raise e' →
  ∃ e, e ∈ out ∧ Edge.type e ∈ followed ∧ e' = KeyError (Edge.target e) ∧
       m !! Edge.target e = None.
Proof.
  revert m st. induction out as [|edge out IH]; intros m st; simpl; [done|].
  case_bool_decide as Hf.
  - destruct (m !! Edge.target edge) as [[]|] eqn:Ht.
    + intros (e & He & ? & ? & ?)%IH. exists e. by split; [right|].
    + intros (e & He & Hfe & -> & Hnone)%IH. exists e.
      split_and!; [by right|done..|].
      destruct (decide (Edge.target e = Edge.target edge)) as [Heq|Hne].
      * by rewrite Heq, lookup_insert_eq in Hnone.
      * by rewrite lookup_insert_ne in Hnone.
    + intros [= <-]. exists edge. by split; [left|].
  - intros (e & He & ? & ? & ?)%IH. exists e. by split; [right|].
Qed.

Lemma search_raises fuel g m st e' :
  Inv g m st → search fuel g m st = Raise e' →
  e' = OutOfFuel ∨
  ∃ e, e ∈ edges g ∧ Edge.type e ∈ followed ∧ Reachable g (Edge.source e) ∧
       (Edge.target e ∉ map Node.id (nodes g)) ∧ e' = KeyError (Edge.target e).
Proof.
  revert m st. induction fuel as [|fuel IH]; intros m [|cur st] HI; simpl; try done.
  { intros [= <-]. by left. }
  destruct (visit (outgoing g cur) m st) as [[m1 st1]|e1] eqn:Hv; simpl.
  - apply IH. by eapply visit_inv.
  - intros [= <-]. right.
    apply visit_KeyError in Hv as (e & [Hsrc He]%list_elem_of_filter & Hf & -> & Hnone).
    exists e. split_and!; [done..| | |done].
    + rewrite Hsrc. apply (inv_sound _ _ _ HI), (inv_stack _ _ _ HI). by left.
    + intros Hin. apply (inv_dom _ _ _ HI) in Hin as [b Hb]. congruence.
Qed.

(** X1.  When the traversal returns, its dictionary has exactly the node
    ids as keys and maps to [True] exactly the ids that are reachable: the
    ids of evidence, calc and entailment nodes and everything a path of
    supports, derives, cites and uses-tool edges leads to from them. *)
Theorem reachable_from_evidence_correct (g : EvidenceGraph) (m : gmap string bool) :
  reachable_from_evidence g = Ok m →
  (∀ k, is_Some (m !! k) ↔ k ∈ map Node.id (nodes g)) ∧
  (∀ k, m !! k = Some true ↔ Reachable g k).
Proof. apply reachable_from_evidence_spec. Qed.

(** X2.  The traversal raises exactly when some followed edge leaves a
    reachable node for an id that no node has; what it raises is then a
    [KeyError] on the target of such an edge, and nothing else is ever
    raised. *)
Theorem reachable_from_evidence_KeyError (g : EvidenceGraph) :
  let Dangling e :=
    e ∈ edges g ∧ Edge.type e ∈ followed ∧ Reachable g (Edge.source e) ∧
    (Edge.target e ∉ map Node.id (nodes g)) in
  ((∃ e', reachable_from_evidence g = Raise e') ↔ ∃ e, Dangling e) ∧
  (∀ e', reachable_from_evidence g = Raise e' →
         ∃ e, Dangling e ∧ e' = KeyError (Edge.target e)).
Proof.
  cbv zeta.
  assert (∀ e', reachable_from_evidence g = Raise e' →
            ∃ e, (e ∈ edges g ∧ Edge.type e ∈ followed ∧
                  Reachable g (Edge.source e) ∧
                  (Edge.target e ∉ map Node.id (nodes g))) ∧
                 e' = KeyError (Edge.target e)) as Hraise.
  { intros e' He'. pose proof He' as Hs. unfold reachable_from_evidence in Hs.
    apply search_raises in Hs; [|apply initial_inv].
    destruct Hs as [->|(e & ? & ? & ? & ? & ->)]; [|by exists e].
    by apply reachable_from_evidence_fuel in He'. }
  split; [|done]. split.
  - intros [e' (e & He & _)%Hraise]. by exists e.
  - intros (e & He & Hf & Hr & Hnin).
    destruct (reachable_from_evidence g) as [m|e'] eqn:Hm; [|by exists e'].
    apply reachable_from_evidence_spec in Hm as [Hdom Htrue].
    destruct Hnin. apply Hdom. exists true. apply Htrue. by apply reach_step.
Qed.

(** X3.  The structural gate returns no violation exactly for the graphs
    whose node ids are pairwise distinct, whose edges all join existing
    nodes, and whose final claims are all reachable. *)
Theorem validate_graph_nil_iff (g : EvidenceGraph) :
  validate_graph g = Ok [] ↔ WellFormed g ∧ MinimalityFacts.Connected g.
Proof.
  split.
  - intros Hv. split; [by apply structurally_valid_inv|].
    by apply MinimalityFacts.structurally_valid_Connected.
  - intros [Hwf Hconn].
    destruct (MinimalityFacts.connectivity_decides g Hwf) as (b & Hb & Hiff).
    apply Hiff in Hconn as ->.
    unfold validate_graph. cbv zeta. rewrite Hb. simpl.
    rewrite bool_decide_eq_false_2.
    2:{ intros Hne. apply Hne. unfold node_ids.
        rewrite size_list_to_set by apply (wf_ids g Hwf). by rewrite length_map. }
    simpl. f_equal. apply flat_map_nil. intros e He. apply edge_errors_nil.
    unfold node_ids. rewrite !elem_of_list_to_set.
    split; [by apply (wf_source g Hwf)|by apply (wf_target g Hwf)].
Qed.

(** An evidence node backs a claim from which a second claim is derived; a
    third claim only refutes. *)
Definition chain : EvidenceGraph :=
  mkGraph [ MinimalityFacts.evidence_node "e1" "Earth is round";
            MinimalityFacts.claim_node "c1" "Earth is round";
            MinimalityFacts.claim_node "c2" "Earth is not flat";
            MinimalityFacts.claim_node "c3" "Earth is flat" ]
          [ Edge.mk "e1" "c1" "supports"; Edge.mk "c1" "c2" "derives";
            Edge.mk "c3" "c2" "refutes" ].

Definition chain_marks : gmap string bool :=
  {[ "e1" := true; "c1" := true; "c2" := true; "c3" := false ]}.

Lemma reachable_from_evidence_correct_witness :
  (∀ k, is_Some (chain_marks !! k) ↔ k ∈ map Node.id (nodes chain)) ∧
  (∀ k, chain_marks !! k = Some true ↔ Reachable chain k).
Proof.
  apply (reachable_from_evidence_correct chain chain_marks).
  vm_compute. reflexivity.
Defined.

End SchemaExtras.

(** ** More on the compiler *)

Module CompilerExtras.
Import Schema Compiler Valid CompilerFacts.
Local Open Scope string_scope.

(** The node [n] is the record [nd] read field by field. *)
Definition node_reads (nd : record) (n : Node.t) : Prop :=
  nd !! "id" = Some (Node.id n) ∧ nd !! "type" = Some (Node.type n) ∧
  nd !! "text" = Node.text n ∧ nd !! "url" = Node.url n ∧
  nd !! "span" = Node.span n ∧ nd !! "hash" = Node.hash n ∧
  nd !! "code" = Node.code n ∧ nd !! "result" = Node.result n ∧
  nd !! "premise" = Node.premise n ∧ nd !! "hypothesis" = Node.hypothesis n ∧
  nd !! "lang" = Node.lang n.

Definition edge_reads (ed : record) (e : Edge.t) : Prop :=
  ed !! "source" = Some (Edge.source e) ∧ ed !! "target" = Some (Edge.target e) ∧
  ed !! "type" = Some (Edge.type e).

Lemma lookup_keep (fields : list string) (d : record) k :
  k ∈ fields → keep fields d !! k = d !! k.
Proof.
  intros Hk. unfold keep. apply option_eq. intros v.
  rewrite map_lookup_filter_Some. simpl. by split; [intros [? _]|].
Qed.

Lemma Node_of_kwargs_Ok nd n :
  Node_of_kwargs (keep NODE_FIELDS nd) = Ok n →
  node_reads nd n ∧ Node.type n ∈ NODE_TYPES.
Proof.
  unfold Node_of_kwargs. case_bool_decide; [|done].
  rewrite !lookup_keep by (by apply (bool_decide_unpack _)).
  destruct (nd !! "id") as [i|] eqn:Hi; [|done].
  destruct (nd !! "type") as [t|] eqn:Ht; [|done].
  unfold Node_init. simpl. case_bool_decide as Hty; [|done].
  intros [= <-]. by split.
Qed.

Lemma Edge_of_kwargs_Ok ed e :
  Edge_of_kwargs (keep EDGE_FIELDS ed) = Ok e →
  edge_reads ed e ∧ Edge.type e ∈ EDGE_TYPES.
Proof.
  unfold Edge_of_kwargs. case_bool_decide; [|done].
  rewrite !lookup_keep by (by apply (bool_decide_unpack _)).
  destruct (ed !! "source") as [s|] eqn:Hs; [|done].
  destruct (ed !! "target") as [t|] eqn:Ht; [|done].
  destruct (ed !! "type") as [ty|] eqn:Hty; [|done].
  unfold Edge_init. simpl. case_bool_decide as Hin; [|done].
  intros [= <-]. by split.
Qed.

Lemma build_Forall2 {A B} (f : A → res B) l ys :
  build f l = Ok ys ↔ Forall2 (λ x y, f x = Ok y) l ys.
Proof.
  revert ys. induction l as [|x l IH]; intros ys.
  - simpl. split; [intros [= <-]; constructor|by inversion 1].
  - rewrite build_cons_Ok. split.
    + intros (y & ys' & Hx & Hl%IH & ->). by constructor.
    + inversion 1 as [|? y ? ys' Hx Hl]; subst. exists y, ys'.
      by rewrite IH.
Qed.

(** What a successful run of [compile_graph] went through. *)
Lemma compile_graph_inv raw g :
  compile_graph raw = Ok g →
  ∃ ns es,
    Forall2 node_reads (default [] (nodes_data raw)) ns ∧
    Forall (λ n, Node.type n ∈ NODE_TYPES) ns ∧
    Forall2 edge_reads (default [] (edges_data raw)) es ∧
    Forall (λ e, Edge.type e ∈ EDGE_TYPES) es ∧
    g = mkGraph (sort_by Node.id String.ltb ns) (sort_by edge_key tuple_ltb es) ∧
    validate_graph g = Ok [].
Proof.
  intros (ns & es & Hns%build_Forall2 & Hes%build_Forall2 & -> & Hvalid)%compile_graph_Ok.
  exists ns, es.
  assert (Forall2 node_reads (default [] (nodes_data raw)) ns ∧
          Forall (λ n, Node.type n ∈ NODE_TYPES) ns) as [Hn1 Hn2].
  { clear Hvalid. induction Hns as [|nd n nds ns' Hn _ [IH1 IH2]]; [by split|].
    apply Node_of_kwargs_Ok in Hn as [? ?]. split; by constructor. }
  assert (Forall2 edge_reads (default [] (edges_data raw)) es ∧
          Forall (λ e, Edge.type e ∈ EDGE_TYPES) es) as [He1 He2].
  { clear Hvalid. induction Hes as [|ed e eds es' He _ [IH1 IH2]]; [by split|].
    apply Edge_of_kwargs_Ok in He as [? ?]. split; by constructor. }
  by split_and!.
Qed.

(** X6.  A graph that [compile_graph] returns passes the structural gate;
    its nodes and its edges are, up to order, the input records read field
    by field, none dropped and none invented; and every node and edge type
    is one of the allowed ones.  So an input with a record that lacks a
    required key or carries an unknown type never compiles. *)
Theorem compile_graph_sound (raw : Raw) (g : EvidenceGraph) :
  compile_graph raw = Ok g →
  validate_graph g = Ok [] ∧
  (∃ ns, Forall2 node_reads (default [] (nodes_data raw)) ns ∧ nodes g ≡ₚ ns) ∧
  (∃ es, Forall2 edge_reads (default [] (edges_data raw)) es ∧ edges g ≡ₚ es) ∧
  Forall (λ n, Node.type n ∈ NODE_TYPES) (nodes g) ∧
  Forall (λ e, Edge.type e ∈ EDGE_TYPES) (edges g).
Proof.
  intros (ns & es & Hn1 & Hn2 & He1 & He2 & -> & Hvalid)%compile_graph_inv.
  simpl. split; [done|]. split_and!.
  - exists ns. split; [done|]. apply sort_by_Permutation.
  - exists es. split; [done|]. apply sort_by_Permutation.
  - by rewrite sort_by_Permutation.
  - by rewrite sort_by_Permutation.
Qed.

Lemma compile_graph_sound_witness :
  validate_graph compiled_a = Ok [] ∧
  (∃ ns, Forall2 node_reads (default [] (nodes_data raw_b)) ns ∧
         nodes compiled_a ≡ₚ ns) ∧
  (∃ es, Forall2 edge_reads (default [] (edges_data raw_b)) es ∧
         edges compiled_a ≡ₚ es) ∧
  Forall (λ n, Node.type n ∈ NODE_TYPES) (nodes compiled_a) ∧
  Forall (λ e, Edge.type e ∈ EDGE_TYPES) (edges compiled_a).
Proof.
  apply (compile_graph_sound raw_b compiled_a). vm_compute. reflexivity.
Defined.

(** *** From a graph back to a raw dictionary *)

(** A dictionary of fields as a raw record: a field whose value is [None]
    is an absent key. *)
Definition record_of_fields (d : list (string * option string)) : record :=
  foldr (λ kv m, match kv.2 with
                 | Some v => <[kv.1 := v]> m
                 | None => m
                 end) ∅ d.

(** The raw dictionary that [to_dict] returns. *)
Definition raw_of_dict
    (d : list (list (string * option string)) * list (list (string * string)))
    : Raw :=
  mkRaw (Some (map record_of_fields d.1)) (Some (map list_to_map d.2)).

Fixpoint assoc (k : string) (d : list (string * option string)) : option string :=
  match d with
  | [] => None
  | kv :: d' =>
      if String.eqb kv.1 k
      then match kv.2 with
           | Some v => Some v
           | None => assoc k d'
           end
      else assoc k d'
  end.

Lemma lookup_record_of_fields d k : record_of_fields d !! k = assoc k d.
Proof.
  induction d as [|[k' [v|]] d IH]; [done|..]; simpl.
  - destruct (String.eqb k' k) eqn:Hk.
    + apply String.eqb_eq in Hk as ->. by rewrite lookup_insert_eq.
    + apply String.eqb_neq in Hk. by rewrite lookup_insert_ne.
  - rewrite IH. by destruct (String.eqb k' k).
Qed.

Lemma option_eta {A} (o : option A) :
  match o with Some v => Some v | None => None end = o.
Proof. by destruct o. Qed.

Lemma keep_Forall fields (d : record) :
  map_Forall (λ k _, k ∈ fields) (keep fields d).
Proof. intros k v [_ Hk]%map_lookup_filter_Some. done. Qed.

Lemma Node_of_node_dict n :
  Node_of_kwargs (keep NODE_FIELDS (record_of_fields (node_dict n))) = Node_init n.
Proof.
  unfold Node_of_kwargs.
  rewrite bool_decide_eq_true_2 by apply keep_Forall.
  rewrite !lookup_keep by (by apply (bool_decide_unpack _)).
  rewrite !lookup_record_of_fields. destruct n. cbn.
  by rewrite !option_eta.
Qed.

Lemma Edge_of_edge_dict e :
  Edge_of_kwargs (keep EDGE_FIELDS (list_to_map (edge_dict e))) = Edge_init e.
Proof. destruct e. by vm_compute. Qed.

Lemma build_map_Ok {A B} (f : A → res B) (h : B → A) l :
  Forall (λ y, f (h y) = Ok y) l → build f (map h l) = Ok l.
Proof. induction 1 as [|y l Hy _ IH]; [done|]. simpl. by rewrite Hy, IH. Qed.

Section sorted.
Context {A K : Type} (key : A → K) (lt : K → K → bool).

Lemma sort_by_Sorted_id l : Sorted (key_le key lt) l → sort_by key lt l = l.
Proof.
  induction 1 as [|x l Hl IH Hx]; [done|]. simpl. rewrite IH.
  destruct Hx as [|y l' Hxy]; [done|]. simpl. unfold key_le in Hxy. by rewrite Hxy.
Qed.

End sorted.

(** A graph in the form [compile_graph] returns: allowed types, nodes in
    the order of their ids, edges in the order of their keys, and no
    structural violation. *)
Definition Canonical (g : EvidenceGraph) : Prop :=
  Forall (λ n, Node.type n ∈ NODE_TYPES) (nodes g) ∧
  Forall (λ e, Edge.type e ∈ EDGE_TYPES) (edges g) ∧
  Sorted (key_le Node.id String.ltb) (nodes g) ∧
  Sorted (key_le edge_key tuple_ltb) (edges g) ∧
  validate_graph g = Ok [].

Lemma compile_graph_Canonical raw g : compile_graph raw = Ok g → Canonical g.
Proof.
  intros (ns & es & _ & Hn & _ & He & -> & Hvalid)%compile_graph_inv.
  split_and!; simpl; [by rewrite sort_by_Permutation..| | |done];
    apply sort_by_Sorted; apply _.
Qed.

Lemma compile_graph_of_Canonical g :
  Canonical g → compile_graph (raw_of_dict (to_dict g)) = Ok g.
Proof.
  intros (Hn & He & Hsn & Hse & Hvalid). unfold compile_graph. cbv zeta.
  cbn [raw_of_dict to_dict nodes_data edges_data default fst snd id].
  rewrite <-!list_fmap_compose.
  rewrite (build_map_Ok (λ nd, Node_of_kwargs (keep NODE_FIELDS nd))).
  2:{ eapply Forall_impl; [apply Hn|]. intros n Hty. cbv beta. unfold compose.
      rewrite Node_of_node_dict. unfold Node_init.
      by rewrite bool_decide_eq_true_2. }
  rewrite (build_map_Ok (λ ed, Edge_of_kwargs (keep EDGE_FIELDS ed))).
  2:{ eapply Forall_impl; [apply He|]. intros e Hty. cbv beta. unfold compose.
      rewrite Edge_of_edge_dict. unfold Edge_init.
      by rewrite bool_decide_eq_true_2. }
  cbn [mbind res_bind]. rewrite !sort_by_Sorted_id by done.
  destruct g as [ns es]. cbn [nodes edges] in *. by rewrite Hvalid.
Qed.

(** X7.  Compiling the dictionary form of a compiled graph gives the
    graph back: [compile_graph] after [to_dict] is the identity on what
    [compile_graph] returns. *)
Theorem compile_graph_to_dict (raw : Raw) (g : EvidenceGraph) :
  compile_graph raw = Ok g →
  compile_graph (raw_of_dict (to_dict g)) = Ok g.
Proof. intros Hg. by apply compile_graph_of_Canonical, (compile_graph_Canonical raw). Qed.

Lemma compile_graph_to_dict_witness :
  compile_graph (raw_of_dict (to_dict compiled_a)) = Ok compiled_a.
Proof.
  apply (compile_graph_to_dict raw_b compiled_a). vm_compute. reflexivity.
Defined.

(** X8.  The graphs that [compile_graph] can return are exactly the
    canonical ones: node and edge types among the allowed ones, nodes in
    the order of their ids, edges in the order of source, target and type,
    and no structural violation. *)
Theorem compile_graph_range (g : EvidenceGraph) :
  (∃ raw, compile_graph raw = Ok g) ↔ Canonical g.
Proof.
  split.
  - intros [raw Hraw]. by apply (compile_graph_Canonical raw).
  - intros Hg. exists (raw_of_dict (to_dict g)). by apply compile_graph_of_Canonical.
Qed.

End CompilerExtras.

(** ** Words and case *)

Module TextFacts.
Import Text.
Local Open Scope string_scope.

Fixpoint NoSpace (s : string) : Prop :=
  match s with
  | EmptyString => True
  | String c s' => is_space c = false ∧ NoSpace s'
  end.

(** A word: a non-empty run of characters none of which is whitespace. *)
Definition Word (w : string) : Prop := w ≠ "" ∧ NoSpace w.

Lemma is_space_lower c : is_space (lower_char c) = is_space c.
Proof. by destruct c as [[] [] [] [] [] [] [] []]. Qed.

Lemma lower_char_idemp c : lower_char (lower_char c) = lower_char c.
Proof. by destruct c as [[] [] [] [] [] [] [] []]. Qed.

Lemma lower_idemp s : lower (lower s) = lower s.
Proof. induction s as [|c s IH]; [done|]. simpl. by rewrite lower_char_idemp, IH. Qed.

Lemma app_snoc (a : string) c (b : string) :
  (a ++ String c "") ++ b = a ++ String c b.
Proof. induction a as [|d a IH]; [done|]. by rewrite !TruthLensFacts.app_String, IH. Qed.

Lemma app_nil_r (a : string) : a ++ "" = a.
Proof. induction a as [|d a IH]; [done|]. by rewrite TruthLensFacts.app_String, IH. Qed.

Lemma app_eq_nil (a b : string) : a ++ b = "" → a = "" ∧ b = "".
Proof. by destruct a. Qed.

Lemma lower_app (a b : string) : lower (a ++ b) = lower a ++ lower b.
Proof.
  induction a as [|d a IH]; [done|].
  rewrite TruthLensFacts.app_String. simpl. by rewrite IH.
Qed.

Lemma lower_eq_nil s : lower s = "" ↔ s = "".
Proof. by destruct s. Qed.

Lemma NoSpace_app a b : NoSpace (a ++ b) ↔ NoSpace a ∧ NoSpace b.
Proof.
  induction a as [|d a IH].
  { rewrite TruthLensFacts.app_empty. simpl. tauto. }
  rewrite TruthLensFacts.app_String. simpl. rewrite IH. tauto.
Qed.

Lemma NoSpace_lower s : NoSpace (lower s) ↔ NoSpace s.
Proof.
  induction s as [|c s IH]; [done|]. simpl. by rewrite is_space_lower, IH.
Qed.

Lemma Word_lower w : Word (lower w) ↔ Word w.
Proof. unfold Word. by rewrite lower_eq_nil, NoSpace_lower. Qed.

(** [split] commutes with lowercasing: no cased character is whitespace
    and no whitespace has a lowercase form. *)
Lemma split_from_lower cur s :
  split_from (lower cur) (lower s) = map lower (split_from cur s).
Proof.
  revert cur. induction s as [|c s IH]; intros cur; simpl.
  - destruct cur; by simpl.
  - rewrite is_space_lower. destruct (is_space c).
    + destruct cur; simpl; [apply (IH "")|]. f_equal. apply (IH "").
    + rewrite <-IH. by rewrite lower_app.
Qed.

Lemma split_lower s : split (lower s) = map lower (split s).
Proof. apply (split_from_lower ""). Qed.

Lemma split_from_Word cur s :
  NoSpace cur → Forall Word (split_from cur s).
Proof.
  revert cur. induction s as [|c s IH]; intros cur Hcur; simpl.
  - case_bool_decide; [constructor|]. by repeat constructor.
  - destruct (is_space c) eqn:Hc.
    + case_bool_decide; [by apply IH|]. constructor; [done|by apply IH].
    + apply IH, NoSpace_app. by split.
Qed.

Lemma split_Word s : Forall Word (split s).
Proof. by apply split_from_Word. Qed.

Lemma split_from_run cur w s :
  NoSpace w → split_from cur (w ++ s) = split_from (cur ++ w) s.
Proof.
  revert cur. induction w as [|c w IH]; intros cur Hw.
  - by rewrite app_nil_r.
  - destruct Hw as [Hc Hw]. rewrite TruthLensFacts.app_String. simpl.
    rewrite Hc, IH by done. by rewrite app_snoc.
Qed.

Lemma split_single w : Word w → split w = [w].
Proof.
  intros [Hne Hw]. unfold split.
  rewrite <-(app_nil_r w) at 1. rewrite split_from_run by done. simpl.
  by rewrite bool_decide_eq_false_2.
Qed.

(** Splitting what [" ".join] made of a list of words gives the list. *)
Lemma split_join ws : Forall Word ws → split (Compiler.join " " ws) = ws.
Proof.
  induction 1 as [|w ws Hw Hws IH]; [done|].
  destruct ws as [|w' ws]; [by apply split_single|].
  change (Compiler.join " " (w :: w' :: ws))
    with (w ++ " " ++ Compiler.join " " (w' :: ws)).
  unfold split. rewrite split_from_run by apply Hw.
  change (" " ++ ?s) with (String " " s). cbn [split_from].
  change (is_space " ") with true. cbv iota.
  rewrite bool_decide_eq_false_2 by apply Hw. f_equal. apply IH.
Qed.

Lemma join_eq_nil ws : Forall Word ws → Compiler.join " " ws = "" → ws = [].
Proof.
  intros Hws Hj. apply (f_equal split) in Hj. by rewrite split_join in Hj.
Qed.

Lemma filter_Word ws :
  Forall Word ws → List.filter (λ t, negb (String.eqb t "")) ws = ws.
Proof.
  induction 1 as [|w ws [Hne _] _ IH]; [done|]. simpl.
  apply String.eqb_neq in Hne as ->. simpl. by rewrite IH.
Qed.

End TextFacts.

(** ** More on the support level *)

Module TruthLensExtras.
Import Text TruthLens TextFacts TruthLensFacts.
Local Open Scope string_scope.

Lemma _tokenize_split s : _tokenize s = split (lower s).
Proof.
  unfold _tokenize. by rewrite filter_Word, split_lower by apply split_Word.
Qed.

(** X10.  Every token that [_tokenize] returns is a non-empty run of
    non-whitespace characters and is in lower case; the tokens are the
    whitespace-separated words of the lowercased text, so the [if t]
    filter of the comprehension never drops anything. *)
Theorem tokenize_tokens (text : string) :
  _tokenize text = split (lower text) ∧
  Forall (λ t, Word t ∧ lower t = t) (_tokenize text).
Proof.
  split; [apply _tokenize_split|].
  unfold _tokenize. rewrite filter_Word by apply split_Word.
  apply Forall_fmap. eapply Forall_impl; [apply split_Word|].
  intros w Hw. simpl. split; [by apply Word_lower|apply lower_idemp].
Qed.

(** X11.  The support level does not look at case: lowercasing the premise
    and the hypothesis leaves the answer as it is. *)
Theorem get_support_level_lower (premise hypothesis : string) :
  get_support_level (lower premise) (lower hypothesis)
  = get_support_level premise hypothesis.
Proof.
  unfold get_support_level.
  by rewrite !(_tokenize_split (lower _)), !lower_idemp, <-!_tokenize_split.
Qed.

(** X12.  [get_support_level] answers supported exactly when
    [check_entailment] of the NLI module holds at its default threshold
    and the premise carries no negation marker in front of a hypothesis
    token: the two modules count the same overlap. *)
Theorem supported_iff_entailment (premise hypothesis : string) :
  get_support_level premise hypothesis = "supported" ↔
  NliCheck.check_entailment premise hypothesis = true ∧
  ¬ Negated premise (_tokenize hypothesis).
Proof.
  unfold get_support_level, NliCheck.check_entailment.
  change NliCheck._tokenize with _tokenize.
  rewrite matches_present. unfold present.
  rewrite (list_filter_iff (λ t, t ∈ _tokenize premise)
             (λ t, t ∈ (list_to_set (_tokenize premise) : gset string)))
    by (intros t; by rewrite elem_of_list_to_set).
  generalize (negated_test premise (_tokenize hypothesis)).
  destruct (_tokenize hypothesis) as [|t h]; intros Hneg.
  { split; [done|]. by intros [? _]. }
  destruct (existsb _ negations).
  - split; [done|]. intros [_ Hn]. destruct Hn. by apply Hneg.
  - assert (¬ Negated premise (t :: h)) as Hn by (intros ?%Hneg; done).
    destruct (_ <=? _)%nat; [done|].
    split; [by destruct (_ <=? _)%nat|]. by intros [? _].
Qed.

End TruthLensExtras.

(** ** The span extractor *)

Module SpansFacts.
Import Text Spans TextFacts.
Local Open Scope string_scope.

Lemma _tokenize_words_split s : _tokenize_words s = split s.
Proof. unfold _tokenize_words. apply filter_Word, split_Word. Qed.

Lemma _tokenize_words_Word s : Forall Word (_tokenize_words s).
Proof. rewrite _tokenize_words_split. apply split_Word. Qed.

Lemma index_Some x l :
  x ∈ l → ∃ i, index x l = Some i ∧ l !! i = Some x.
Proof.
  induction l as [|y l IH]; [by intros ?%elem_of_nil|].
  intros Hx. simpl. destruct (String.eqb y x) eqn:Hyx.
  - apply String.eqb_eq in Hyx as ->. by exists 0%nat.
  - apply String.eqb_neq in Hyx. apply elem_of_cons in Hx as [->|Hx]; [done|].
    destruct (IH Hx) as (i & -> & Hi). by exists (S i).
Qed.

Lemma first_hit_none qs ls :
  Forall (λ x, x ∉ ls) qs → first_hit qs ls = (-1)%Z.
Proof.
  induction 1 as [|x qs Hx _ IH]; [done|]. simpl.
  destruct (mem x ls) eqn:Hm; [|done].
  by apply TruthLensFacts.mem_elem_of in Hm.
Qed.

Lemma first_hit_Some qs ls :
  Exists (λ x, x ∈ ls) qs →
  ∃ i qi, first_hit qs ls = Z.of_nat i ∧ qi ∈ qs ∧ ls !! i = Some qi.
Proof.
  induction qs as [|x qs IH]; [by intros ?%Exists_nil|].
  intros Hex. simpl. destruct (mem x ls) eqn:Hm.
  - apply TruthLensFacts.mem_elem_of in Hm.
    destruct (index_Some x ls Hm) as (i & -> & Hi).
    exists i, x. split_and!; [done|by left|done].
  - apply Exists_cons in Hex as [Hx|Hex].
    { apply TruthLensFacts.mem_elem_of in Hx. congruence. }
    destruct (IH Hex) as (i & qi & ? & ? & ?). exists i, qi.
    split_and!; [done|by right|done].
Qed.

(** The word position the window is laid around. *)
Definition position (doc_text query : string) : Z :=
  let idx := first_hit (_tokenize_words (lower query))
                       (map lower (_tokenize_words doc_text)) in
  if (idx =? -1)%Z then 0%Z else idx.

Lemma position_range doc_text query :
  position doc_text query = 0%Z ∨
  ∃ i y qi, position doc_text query = Z.of_nat i ∧
            _tokenize_words doc_text !! i = Some y ∧ lower y = qi ∧
            qi ∈ _tokenize_words (lower query).
Proof.
  unfold position.
  destruct (decide (Exists (λ x, x ∈ map lower (_tokenize_words doc_text))
                           (_tokenize_words (lower query)))) as [Hex|Hno].
  - destruct (first_hit_Some _ _ Hex) as (i & qi & -> & Hqi & Hi).
    right. rewrite list_lookup_fmap in Hi.
    destruct (_tokenize_words doc_text !! i) as [y|] eqn:Hy; [|done].
    injection Hi as <-. exists i, y, (lower y).
    split_and!; try done. by destruct (Z.of_nat i =? -1)%Z eqn:?; [lia|].
  - left. apply not_Exists_Forall in Hno; [|intros ?; apply _].
    by rewrite first_hit_none.
Qed.

Lemma slice_window {A} (l : list A) (start window : Z) :
  (0 ≤ start)%Z → (0 ≤ window)%Z →
  slice l start (Z.min (Z.of_nat (List.length l)) (start + window))
  = take (Z.to_nat window) (drop (Z.to_nat start) l).
Proof.
  intros Hs Hw. unfold slice, slice_bound. cbv zeta.
  destruct (start <? 0)%Z eqn:E1; [lia|].
  destruct (Z.min _ (start + window) <? 0)%Z eqn:E2;
    [apply Z.ltb_lt in E2; lia|].
  destruct (decide (Z.of_nat (List.length l) ≤ start)%Z) as [Hge|Hlt].
  - rewrite !drop_ge by lia. by rewrite !take_nil.
  - replace (Z.to_nat (Z.min start _)) with (Z.to_nat start) by lia.
    destruct (decide (start + window ≤ Z.of_nat (List.length l))%Z).
    + f_equal. lia.
    + rewrite !take_ge; [done|rewrite length_drop; lia..].
Qed.

Lemma extract_span_eq doc_text query window :
  (0 ≤ window)%Z →
  extract_span doc_text query window
  = Compiler.join " "
      (take (Z.to_nat window)
            (drop (Z.to_nat (Z.max 0 (position doc_text query - window `div` 2)))
                  (_tokenize_words doc_text))).
Proof.
  intros Hw. unfold extract_span. cbv zeta.
  fold (position doc_text query). by rewrite slice_window by lia.
Qed.

(** X17.  For a window that is not negative, the words of the span that
    [extract_span] returns are a run of consecutive words of the document,
    at most [window] of them: the span is cut at word boundaries and joining
    with single blanks loses no word. *)
Theorem extract_span_window (doc_text query : string) (window : Z) :
  (0 ≤ window)%Z →
  (∃ i, _tokenize_words (extract_span doc_text query window)
        = take (Z.to_nat window) (drop i (_tokenize_words doc_text))) ∧
  (Z.of_nat (List.length (_tokenize_words (extract_span doc_text query window)))
   ≤ window)%Z.
Proof.
  intros Hw. rewrite extract_span_eq by done.
  rewrite _tokenize_words_split, split_join.
  - split; [by eexists|]. rewrite length_take. lia.
  - apply Forall_take, Forall_drop, _tokenize_words_Word.
Qed.

Lemma extract_span_window_witness :
  (∃ i, _tokenize_words (extract_span "The  Eiffel Tower is in Paris" "Where is Paris?" 2)
        = take 2 (drop i (_tokenize_words "The  Eiffel Tower is in Paris"))) ∧
  (Z.of_nat (List.length (_tokenize_words
      (extract_span "The  Eiffel Tower is in Paris" "Where is Paris?" 2))) ≤ 2)%Z.
Proof.
  apply (extract_span_window "The  Eiffel Tower is in Paris" "Where is Paris?" 2).
  lia.
Defined.

(** X18.  When no word of the lowercased query is the lowercase form of a
    document word, the span is the first [window] words of the document,
    joined by single blanks. *)
Theorem extract_span_no_overlap (doc_text query : string) (window : Z) :
  (0 ≤ window)%Z →
  Forall (λ x, x ∉ map lower (_tokenize_words doc_text))
         (_tokenize_words (lower query)) →
  extract_span doc_text query window
  = Compiler.join " " (take (Z.to_nat window) (_tokenize_words doc_text)).
Proof.
  intros Hw Hno. rewrite extract_span_eq by done.
  unfold position. rewrite first_hit_none by done. simpl.
  pose proof (Z.div_pos window 2 Hw ltac:(lia)).
  replace (Z.to_nat (Z.max 0 _)) with 0%nat by lia. done.
Qed.

Lemma extract_span_no_overlap_witness :
  extract_span "The  Eiffel Tower is in Paris" "Who built Rome?" 3
  = Compiler.join " " (take 3 (_tokenize_words "The  Eiffel Tower is in Paris")).
Proof.
  apply (extract_span_no_overlap "The  Eiffel Tower is in Paris" "Who built Rome?" 3).
  - lia.
  - apply (bool_decide_unpack _). vm_compute. exact I.
Defined.

(** X19.  When some word of the lowercased query is the lowercase form of a
    document word and the window has room for a word, the span holds a
    word whose lowercase form is a word of the query. *)
Theorem extract_span_hit (doc_text query : string) (window : Z) :
  (1 ≤ window)%Z →
  Exists (λ x, x ∈ map lower (_tokenize_words doc_text))
         (_tokenize_words (lower query)) →
  Exists (λ y, lower y ∈ _tokenize_words (lower query))
         (_tokenize_words (extract_span doc_text query window)).
Proof.
  intros Hw Hex. rewrite extract_span_eq by lia.
  rewrite (_tokenize_words_split (Compiler.join _ _)), split_join
    by apply Forall_take, Forall_drop, _tokenize_words_Word.
  unfold position.
  destruct (first_hit_Some _ _ Hex) as (i & qi & -> & Hqi & Hi).
  destruct (Z.of_nat i =? -1)%Z eqn:E; [apply Z.eqb_eq in E; lia|]. clear E.
  rewrite list_lookup_fmap in Hi.
  destruct (_tokenize_words doc_text !! i) as [y|] eqn:Hy; [|done].
  injection Hi as <-.
  pose proof (Z.div_pos window 2 ltac:(lia) ltac:(lia)).
  pose proof (Z.div_lt window 2 ltac:(lia) ltac:(lia)).
  set (start := Z.to_nat (Z.max 0 _)).
  apply Exists_exists. exists y. split; [|done].
  apply (list_elem_of_lookup_2 _ (i - start)%nat).
  rewrite lookup_take_lt by (unfold start; lia).
  rewrite lookup_drop. rewrite <-Hy. f_equal. unfold start. lia.
Qed.

Lemma extract_span_hit_witness :
  Exists (λ y, lower y ∈ _tokenize_words (lower "Where IS Paris?"))
         (_tokenize_words
            (extract_span "The  Eiffel Tower is in Paris" "Where IS Paris?" 1)).
Proof.
  apply (extract_span_hit "The  Eiffel Tower is in Paris" "Where IS Paris?" 1).
  - lia.
  - apply (bool_decide_unpack _). vm_compute. exact I.
Defined.

Lemma extract_span_eq_nil doc_text query window :
  (1 ≤ window)%Z →
  extract_span doc_text query window = "" ↔ _tokenize_words doc_text = [].
Proof.
  intros Hw. rewrite extract_span_eq by lia. split.
  - intros Hj%join_eq_nil;
      [|apply Forall_take, Forall_drop, _tokenize_words_Word].
    destruct (_tokenize_words doc_text) as [|w ws] eqn:Hwords; [done|].
    exfalso. apply (f_equal List.length) in Hj.
    rewrite length_take, length_drop in Hj. simpl in Hj.
    pose proof (Z.div_pos window 2 ltac:(lia) ltac:(lia)).
    destruct (position_range doc_text query) as [Hp|(i & y & qi & Hp & Hy & _)];
      rewrite Hp in Hj.
    + simpl in Hj. lia.
    + rewrite Hwords in Hy. apply lookup_lt_Some in Hy. simpl in Hy. lia.
  - intros ->. by rewrite drop_nil, take_nil.
Qed.

(** X20.  With a window of at least one word, the span is the empty string
    exactly when the document has no word. *)
Theorem extract_span_empty (doc_text query : string) (window : Z) :
  (1 ≤ window)%Z →
  extract_span doc_text query window = "" ↔ _tokenize_words doc_text = [].
Proof. apply extract_span_eq_nil. Qed.

Lemma extract_span_empty_witness :
  extract_span "  " "Where is Paris?" 40 = "" ↔ _tokenize_words "  " = [].
Proof.
  apply (extract_span_empty "  " "Where is Paris?" 40). lia.
Defined.

End SpansFacts.

(** ** The shape of a digest *)

Module Sha256Facts.
Import Sha256.
Local Open Scope string_scope.

Lemma length_round st kw : List.length (round st kw) = List.length st.
Proof.
  unfold round.
  by destruct st as [|a [|b [|c [|d [|e [|f [|g [|h [|i st]]]]]]]]].
Qed.

Lemma length_rounds kws st :
  List.length (fold_left round kws st) = List.length st.
Proof.
  revert st. induction kws as [|kw kws IH]; intros st; [done|].
  simpl. by rewrite IH, length_round.
Qed.

Lemma length_compress h block : List.length (compress h block) = List.length h.
Proof.
  unfold compress. cbv zeta.
  rewrite length_map, length_combine, length_rounds. lia.
Qed.

Lemma length_blocks n h bs : List.length (blocks n h bs) = List.length h.
Proof.
  revert h bs. induction n as [|n IH]; intros h bs; [done|]. simpl.
  destruct bs; [done|]. by rewrite IH, length_compress.
Qed.

Lemma length_be_bytes n x : List.length (be_bytes n x) = n.
Proof. unfold be_bytes. by rewrite length_map, length_rev, length_seq. Qed.

Lemma be_bytes_range n x : Forall (λ b, 0 ≤ b < 256)%Z (be_bytes n x).
Proof.
  unfold be_bytes. apply Forall_fmap, Forall_forall. intros i _. simpl.
  change 255%Z with (Z.ones 8). rewrite Z.land_ones by lia.
  apply Z.mod_pos_bound. lia.
Qed.

Lemma length_digest msg : List.length (digest msg) = 32%nat.
Proof.
  unfold digest. cbv zeta.
  rewrite (flat_map_constant_length (c:=4)) by (intros; apply length_be_bytes).
  by rewrite length_blocks.
Qed.

Lemma digest_range msg : Forall (λ b, 0 ≤ b < 256)%Z (digest msg).
Proof.
  unfold digest. cbv zeta. apply Forall_forall. intros b Hb.
  apply list_elem_of_In, in_flat_map in Hb as (w & _ & Hb).
  apply list_elem_of_In in Hb. revert b Hb. apply Forall_forall, be_bytes_range.
Qed.

Definition hex_digits : list ascii := list_ascii_of_string "0123456789abcdef".

Lemma hex_digit_in x : (0 ≤ x < 16)%Z → hex_digit x ∈ hex_digits.
Proof.
  intros Hx.
  assert (Z.to_nat x < 16)%nat as Hn by lia.
  rewrite <-(Z2Nat.id x) by lia.
  revert Hn. generalize (Z.to_nat x). clear. intros n Hn.
  do 16 (destruct n as [|n];
         [apply (bool_decide_unpack _); vm_compute; exact I|]).
  lia.
Qed.

Lemma length_hex bs : String.length (hex bs) = (2 * List.length bs)%nat.
Proof.
  unfold hex. induction bs as [|b bs IH]; [done|].
  simpl in *. rewrite IH. lia.
Qed.

Lemma hex_digits_only bs :
  Forall (λ b, 0 ≤ b < 256)%Z bs →
  Forall (λ c, c ∈ hex_digits) (list_ascii_of_string (hex bs)).
Proof.
  unfold hex. rewrite list_ascii_of_string_of_list_ascii.
  induction 1 as [|b bs Hb _ IH]; [constructor|]. simpl.
  constructor; [|constructor; [|done]]; apply hex_digit_in.
  - rewrite Z.shiftr_div_pow2 by lia. change (2 ^ 4)%Z with 16%Z.
    split; [apply Z.div_pos; lia|apply Z.div_lt_upper_bound; lia].
  - change 15%Z with (Z.ones 4). rewrite Z.land_ones by lia.
    apply Z.mod_pos_bound. lia.
Qed.

Lemma sha256_hex_length s : String.length (sha256_hex s) = 64%nat.
Proof. unfold sha256_hex. by rewrite length_hex, length_digest. Qed.

Lemma sha256_hex_ne s : sha256_hex s ≠ "".
Proof. intros Hs. pose proof (sha256_hex_length s) as Hl. by rewrite Hs in Hl. Qed.

(** X16.  The digest that [_hash_text] and [_sha256_hex] return for any
    text is 64 characters long and every character is one of the
    lowercase hexadecimal digits; in particular it is never empty. *)
Theorem hash_text_shape (text : string) :
  HashCheck._sha256_hex text = Planner._hash_text text ∧
  String.length (Planner._hash_text text) = 64%nat ∧
  Forall (λ c, c ∈ hex_digits) (list_ascii_of_string (Planner._hash_text text)).
Proof.
  split; [done|]. split; [apply sha256_hex_length|].
  apply hex_digits_only, digest_range.
Qed.

End Sha256Facts.

(** ** The planner and the public entry point *)

Module PlannerFacts.
Import Schema Planner Runner.
Local Open Scope string_scope.

(** The graph that [plan_proof] builds from a document. *)
Definition planned (answer url span h : string) : EvidenceGraph :=
  mkGraph [ Node.mk "c1" "claim" (Some answer) None None None None None None None None;
            Node.mk "e1" "evidence" None (Some url) (Some span) (Some h)
                    None None None None None ]
          [ Edge.mk "e1" "c1" "supports" ].

Definition top_span (query : string) (doc : gmap string string) : string :=
  Spans.extract_span (default "" (doc !! "text")) query 40.

Lemma plan_proof_cons query answer doc rest :
  plan_proof query answer (doc :: rest)
  = Ok (planned answer (default "unknown" (doc !! "id")) (top_span query doc)
                (_hash_text (top_span query doc))).
Proof. reflexivity. Qed.

Lemma binding_planned answer url span :
  HashCheck.check_source_binding (planned answer url span (Sha256.sha256_hex span))
  = (bool_decide (span ≠ ""),
     if bool_decide (span = "") then ["evidence e1 missing span"] else []).
Proof.
  unfold HashCheck.check_source_binding, HashCheck.node_problems, planned.
  cbn -[Sha256.sha256_hex].
  rewrite (bool_decide_eq_true_2 ("claim" ≠ "evidence")) by done.
  rewrite (bool_decide_eq_false_2 ("evidence" ≠ "evidence")) by (by intros ?).
  destruct (decide (span = "")) as [->|Hspan]; [done|].
  rewrite (bool_decide_eq_true_2 (span ≠ "")) by done.
  rewrite !(bool_decide_eq_false_2 (span = "")) by done.
  rewrite (bool_decide_eq_false_2 (Sha256.sha256_hex span = ""))
    by apply Sha256Facts.sha256_hex_ne.
  by rewrite (bool_decide_eq_false_2 (_ ≠ _)) by (by intros ?).
Qed.

Lemma get_node_planned answer url span h :
  get_node (planned answer url span h) "e1"
  = Some (Node.mk "e1" "evidence" None (Some url) (Some span) (Some h)
                  None None None None None) ∧
  get_node (planned answer url span h) "c1"
  = Some (Node.mk "c1" "claim" (Some answer) None None None None None None None None).
Proof. split; by vm_compute. Qed.

Lemma minimality_planned answer url span h :
  Minimality.check_minimality (planned answer url span h) = Ok (true, []).
Proof. by vm_compute. Qed.

Lemma validate_planned answer url span h :
  validate_graph (planned answer url span h) = Ok [].
Proof. by vm_compute. Qed.

Lemma validate_lone_claim answer :
  validate_graph
    (mkGraph [Node.mk "c1" "claim" (Some answer) None None None None None
                      None None None] [])
  ≠ Ok [].
Proof. by vm_compute. Qed.

(** X21.  [plan_proof] never raises, and the graph it builds passes
    [validate_graph] exactly when at least one document was supplied. *)
Theorem plan_proof_validates (query answer : string)
    (documents : list (gmap string string)) :
  ∃ g, plan_proof query answer documents = Ok g ∧
       (validate_graph g = Ok [] ↔ documents ≠ []).
Proof.
  destruct documents as [|doc rest].
  - eexists. split; [reflexivity|]. split; [|done].
    intros Hv. by apply validate_lone_claim in Hv.
  - eexists. split; [apply plan_proof_cons|]. split; [done|].
    intros _. apply validate_planned.
Qed.

Section verify.
Context {F : Type} `{Numeric.PyFloat F}.
Context (ast_parse : string → res (Numeric.tree (F:=F))).
Context (str_format : string → Numeric.value (F:=F) → res string).

Lemma verify_lone_claim answer :
  _verify ast_parse str_format
    (mkGraph [Node.mk "c1" "claim" (Some answer) None None None None None
                      None None None] [])
  = Ok (false, mkDetails (true, []) (true, []) (false, []) (true, [])).
Proof. by vm_compute. Qed.

Lemma verify_planned answer url span :
  ∃ details,
    _verify ast_parse str_format (planned answer url span (Sha256.sha256_hex span))
    = Ok (bool_decide (span ≠ "") &&
          bool_decide (TruthLens.get_support_level span answer = "supported"),
          details).
Proof.
  unfold _verify. rewrite binding_planned, minimality_planned.
  assert (flat_map (edge_levels (planned answer url span (Sha256.sha256_hex span)))
                   (edges (planned answer url span (Sha256.sha256_hex span)))
          = [TruthLens.get_support_level span answer]) as ->.
  { change (edges (planned _ _ _ _)) with [Edge.mk "e1" "c1" "supports"].
    cbn [flat_map]. unfold edge_levels. cbn [Edge.source Edge.target Edge.type].
    destruct (get_node_planned answer url span (Sha256.sha256_hex span)) as [-> ->].
    done. }
  assert (flat_map (node_numeric ast_parse str_format)
                   (nodes (planned answer url span (Sha256.sha256_hex span)))
          = []) as -> by done.
  eexists. cbn [forallb mbind res_bind]. rewrite !andb_true_r. reflexivity.
Qed.

(** The verdict on what the planner builds. *)
Definition Backed (query answer : string) (documents : list (gmap string string))
    : Prop :=
  ∃ doc rest, documents = doc :: rest ∧
    Spans._tokenize_words (default "" (doc !! "text")) ≠ [] ∧
    TruthLens.get_support_level (top_span query doc) answer = "supported".

Lemma verify_planner_graph (query answer : string)
    (documents : list (gmap string string)) :
  ∃ g valid details,
    plan_proof query answer documents = Ok g ∧
    _verify ast_parse str_format g = Ok (valid, details) ∧
    (valid = true ↔ Backed query answer documents).
Proof.
  destruct documents as [|doc rest].
  - eexists _, _, _. split; [reflexivity|]. split; [apply verify_lone_claim|].
    split; [done|]. by intros (? & ? & ? & _).
  - destruct (verify_planned answer (default "unknown" (doc !! "id"))
                (top_span query doc)) as [details Hv].
    eexists _, _, _. split; [apply plan_proof_cons|]. split; [apply Hv|].
    rewrite andb_true_iff, !bool_decide_eq_true.
    unfold top_span at 1.
    rewrite (SpansFacts.extract_span_eq_nil _ _ 40) by lia.
    split.
    + intros [? ?]. by exists doc, rest.
    + intros (doc' & rest' & [= <- <-] & ? & ?). done.
Qed.

(** X22.  [_verify] returns on every graph that [plan_proof] builds, and
    its verdict is true exactly when there is a document, the text of the
    first document has at least one word, and the span extracted from it
    classifies the answer as supported.  With no document the verdict is
    false. *)
Theorem verify_plan_proof (query answer : string)
    (documents : list (gmap string string)) :
  ∃ g valid details,
    plan_proof query answer documents = Ok g ∧
    _verify ast_parse str_format g = Ok (valid, details) ∧
    (valid = true ↔ Backed query answer documents).
Proof. apply verify_planner_graph. Qed.

End verify.

End PlannerFacts.

Module PaladinRunnerFacts.
Import Schema Planner Runner PaladinRunner PlannerFacts.
Local Open Scope string_scope.

Section runner.
Context {F : Type} `{Numeric.PyFloat F}.
Context (ast_parse : string → res (Numeric.tree (F:=F))).
Context (str_format : string → Numeric.value (F:=F) → res string).
Context (retrieve : string → Z → res (list (gmap string string))).
Context (answer_question : string → list (gmap string string) → res string).

(** X24.  When the retriever returns documents and the answerer returns an
    answer, [answer_and_proof] returns: the answer is the answerer's, the
    graph is the dictionary form of the planner's graph, and the verdict is
    true exactly when the first document has a word and its span classifies
    the answer as supported.  Planning and verification add no failure of
    their own. *)
Theorem answer_and_proof_returns (query : string) (top_k : Z)
    (docs : list (gmap string string)) (ans : string) :
  retrieve query top_k = Ok docs →
  answer_question query docs = Ok ans →
  ∃ r g, answer_and_proof ast_parse str_format retrieve answer_question query top_k
         = Ok r ∧
         answer r = ans ∧
         plan_proof query ans docs = Ok g ∧ graph r = to_dict g ∧
         (valid r = true ↔ Backed query ans docs).
Proof.
  intros Hdocs Hans. unfold answer_and_proof. rewrite Hdocs. cbn [mbind res_bind].
  rewrite Hans.
  destruct (verify_planner_graph ast_parse str_format query ans docs)
    as (g & valid & details & Hg & Hv & Hvalid).
  cbn [mbind res_bind]. rewrite Hg. cbn [mbind res_bind]. rewrite Hv.
  by eexists _, g.
Qed.

(** X25.  An exception out of [answer_and_proof] is the retriever's or the
    answerer's. *)
Theorem answer_and_proof_raises (query : string) (top_k : Z) (e : exn) :
  answer_and_proof ast_parse str_format retrieve answer_question query top_k
  = Raise e →
  retrieve query top_k = Raise e ∨
  ∃ docs, retrieve query top_k = Ok docs ∧ answer_question query docs = Raise e.
Proof.
  unfold answer_and_proof.
  destruct (retrieve query top_k) as [docs|e1]; cbn [mbind res_bind];
    [|intros [= ->]; by left].
  destruct (answer_question query docs) as [ans|e2] eqn:Hans;
    cbn [mbind res_bind]; [|intros [= ->]; right; by exists docs].
  destruct (verify_planner_graph ast_parse str_format query ans docs)
    as (g & valid & details & Hg & Hv & _).
  cbn [mbind res_bind]. rewrite Hg. cbn [mbind res_bind]. by rewrite Hv.
Qed.

End runner.

#[local] Existing Instance NumericFacts.no_float.

Definition one_document (query : string) (top_k : Z)
    : res (list (gmap string string)) :=
  Ok [ {[ "id" := "doc1"; "text" := "Paris is the capital of France" ]} ].

Definition says_paris (query : string) (docs : list (gmap string string))
    : res string :=
  Ok "Paris".

Definition gives_up (query : string) (docs : list (gmap string string))
    : res string :=
  Raise (ValueError "no answer").

Lemma answer_and_proof_returns_witness :
  ∃ r g, answer_and_proof NumericFacts.parse_known NumericFacts.no_format
                          one_document says_paris "What is the capital of France?" 1
         = Ok r ∧
         answer r = "Paris" ∧
         plan_proof "What is the capital of France?" "Paris"
           [ {[ "id" := "doc1"; "text" := "Paris is the capital of France" ]} ]
         = Ok g ∧
         graph r = to_dict g ∧
         (valid r = true ↔
          Backed "What is the capital of France?" "Paris"
            [ {[ "id" := "doc1"; "text" := "Paris is the capital of France" ]} ]).
Proof.
  apply (answer_and_proof_returns NumericFacts.parse_known NumericFacts.no_format
           one_document says_paris "What is the capital of France?" 1);
    reflexivity.
Defined.

Lemma answer_and_proof_raises_witness :
  one_document "What is the capital of France?" 1 = Raise (ValueError "no answer") ∨
  ∃ docs, one_document "What is the capital of France?" 1 = Ok docs ∧
          gives_up "What is the capital of France?" docs = Raise (ValueError "no answer").
Proof.
  apply (answer_and_proof_raises NumericFacts.parse_known NumericFacts.no_format
           one_document gives_up "What is the capital of France?" 1).
  reflexivity.
Defined.

(** The run of the first witness ends in a true verdict. *)
Lemma answer_and_proof_paris :
  valid <$> (match answer_and_proof NumericFacts.parse_known NumericFacts.no_format
                     one_document says_paris "What is the capital of France?" 1 with
             | Ok r => Some r
             | Raise _ => None
             end) = Some true.
Proof. by vm_compute. Qed.

End PaladinRunnerFacts.

(** ** When the orchestrator returns *)

Module RunnerExtras.
Import Schema Reach Valid Minimality Runner.
Local Open Scope string_scope.

(** A followed edge of [g] whose target is the id of no node. *)
Definition Dangling (g : EvidenceGraph) (e : Edge.t) : Prop :=
  e ∈ edges g ∧ Edge.type e ∈ followed ∧
  (Edge.target e ∉ map Node.id (nodes g)).

Lemma not_Dangling_targets_exist g : (∀ e, ¬ Dangling g e) → targets_exist g.
Proof.
  intros Hno e He Hf.
  destruct (decide (Edge.target e ∈ map Node.id (nodes g))) as [|Hnin]; [done|].
  by destruct (Hno e).
Qed.

Lemma targets_exist_without g i :
  targets_exist g → targets_exist (_graph_without_edge g i).
Proof.
  intros Hex e He. apply Hex. simpl in He. by eapply list_subseteq_delete.
Qed.

Lemma validate_connectivity_raises g e' :
  validate_connectivity g = Raise e' →
  ∃ e, Dangling g e ∧ e' = KeyError (Edge.target e).
Proof.
  unfold validate_connectivity.
  destruct (reachable_from_evidence g) as [m|e1] eqn:Hm; [done|].
  simpl. intros [= <-]. pose proof Hm as Hs.
  unfold reachable_from_evidence in Hs.
  apply SchemaExtras.search_raises in Hs; [|apply initial_inv].
  destruct Hs as [->|(e & ? & ? & ? & ? & ->)]; [|by exists e].
  by apply reachable_from_evidence_fuel in Hm.
Qed.

Lemma removable_from_total g i es :
  targets_exist g → ∃ r, removable_from g i es = Ok r.
Proof.
  intros Hex. revert i. induction es as [|e es IH]; intros i; simpl; [by eexists|].
  destruct (validate_connectivity_total _ (targets_exist_without g i Hex))
    as [b ->].
  destruct (IH (S i)) as [r ->]. simpl. by eexists.
Qed.

Lemma removable_from_raises g i es e' :
  removable_from g i es = Raise e' →
  ∃ e, Dangling g e ∧ e' = KeyError (Edge.target e).
Proof.
  revert i. induction es as [|ed es IH]; intros i; simpl; [done|].
  destruct (validate_connectivity (_graph_without_edge g i)) as [b|e1] eqn:Hb;
    simpl.
  - destruct (removable_from g (S i) es) as [r|e2] eqn:Hr; simpl; [done|].
    intros [= <-]. by apply (IH (S i)).
  - intros [= <-].
    apply validate_connectivity_raises in Hb as (e & (He & Hf & Hnin) & ->).
    exists e. split; [|done]. split_and!; [|done..].
    simpl in He. by eapply list_subseteq_delete.
Qed.

Section verify.
Context {F : Type} `{Numeric.PyFloat F}.
Context (ast_parse : string → res (Numeric.tree (F:=F))).
Context (str_format : string → Numeric.value (F:=F) → res string).

(** X23.  [_verify] either returns a verdict with its details, or raises a
    [KeyError] on the target of a supports, derives, cites or uses-tool
    edge that ends at no node; on a graph without such an edge it always
    returns.  No check lets another exception out. *)
Theorem verify_returns_or_KeyError (g : EvidenceGraph) :
  (∃ valid details, _verify ast_parse str_format g = Ok (valid, details)) ∨
  (∃ e, Dangling g e ∧
        _verify ast_parse str_format g = Raise (KeyError (Edge.target e))).
Proof.
  unfold _verify. destruct (HashCheck.check_source_binding g) as [ok_hash problems].
  unfold check_minimality.
  destruct (edges g) as [|ed es] eqn:Hedges; [left; by eexists _, _|].
  rewrite <-Hedges.
  destruct (removable_from g 0 (edges g)) as [r|e'] eqn:Hr; simpl.
  - left. by eexists _, _.
  - right. apply removable_from_raises in Hr as (e & He & ->). by exists e.
Qed.

End verify.

(** On a graph where every followed edge ends at a node the first case
    holds. *)
Lemma check_minimality_total g :
  targets_exist g → ∃ r, check_minimality g = Ok r.
Proof.
  intros Hex. unfold check_minimality. destruct (edges g) eqn:He; [by eexists|].
  rewrite <-He. destruct (removable_from_total g 0 (edges g) Hex) as [r ->].
  simpl. by eexists.
Qed.

End RunnerExtras.

(** ** More on the arithmetic checker *)

Module NumericExtras.
Import Numeric.
Local Open Scope string_scope.

Section trees.
Context {F : Type} `{PyFloat F}.
Context (ast_parse : string → res (tree (F:=F))).
Context (str_format : string → value (F:=F) → res string).

Definition in_table (op : operator) : bool :=
  match op with
  | Add | Sub | Mult | Div | FloorDiv | Mod => true
  | _ => false
  end.

(** A tree of constants, unary nodes and binary nodes whose operator is one
    of [+ - * / // %], and of nothing else. *)
Fixpoint arithmetic_only (node : expr (F:=F)) : bool :=
  match node with
  | Constant _ => true
  | UnaryOp _ operand => arithmetic_only operand
  | BinOp l op r => arithmetic_only l && arithmetic_only r && in_table op
  | _ => false
  end.

Lemma eval_expr_arithmetic_only (node : expr) (v : value) :
  eval_expr str_format node = Ok v → arithmetic_only node = true.
Proof.
  revert node v. fix IH 1. intros [c|op operand|l op r| | | | |] v; simpl; try done.
  - destruct (eval_expr str_format operand) as [w|] eqn:Hw; [|done].
    intros _. by apply (IH operand w).
  - destruct (eval_expr str_format l) as [a|] eqn:Ha; [|done].
    destruct (eval_expr str_format r) as [b|] eqn:Hb; [|done]. simpl.
    rewrite (IH l a Ha), (IH r b Hb). by destruct op.
Qed.

(** X14.  The checker fails closed: a text is accepted only if it parses
    and its tree is made of constants, unary nodes and binary nodes with one
    of the six operators of the table.  A name, a call, an attribute, a
    comparison or a power anywhere in the tree makes the answer [False],
    whatever the expected string. *)
Theorem check_numeric_calc_fails_closed (code expected : string) :
  check_numeric_calc ast_parse str_format code expected = true →
  ∃ body, ast_parse code = Ok (Expression body) ∧ arithmetic_only body = true.
Proof.
  unfold check_numeric_calc, check_parsed.
  destruct (ast_parse code) as [[body]|]; [|done]. simpl.
  destruct (eval_expr str_format body) as [v|] eqn:Hv; [|done].
  intros _. exists body. split; [done|]. by apply (eval_expr_arithmetic_only body v).
Qed.

Definition int_op (op : operator) : bool :=
  match op with
  | Add | Sub | Mult | FloorDiv | Mod => true
  | _ => false
  end.

(** An expression of integer literals, unary minus and [+ - * // %]. *)
Inductive IntTree : expr (F:=F) → Prop :=
| int_literal z : IntTree (Constant (VInt z))
| int_minus operand : IntTree operand → IntTree (UnaryOp USub operand)
| int_binary l op r :
    IntTree l → IntTree r → int_op op = true → IntTree (BinOp l op r).

(** Its value in the integers; [None] when a divisor is zero.  Python's
    [//] rounds down and [%] takes the sign of the divisor, as [Z.div] and
    [Z.modulo] do. *)
Fixpoint exact (node : expr (F:=F)) : option Z :=
  match node with
  | Constant (VInt z) => Some z
  | UnaryOp _ operand => Z.opp <$> exact operand
  | BinOp l op r =>
      a ← exact l;
      b ← exact r;
      match op with
      | Add => Some (a + b)%Z
      | Sub => Some (a - b)%Z
      | Mult => Some (a * b)%Z
      | FloorDiv => if (b =? 0)%Z then None else Some (a `div` b)%Z
      | Mod => if (b =? 0)%Z then None else Some (a `mod` b)%Z
      | _ => None
      end
  | _ => None
  end.

Lemma eval_expr_exact (node : expr) :
  IntTree node →
  eval_expr str_format node
  = match exact node with
    | Some z => Ok (VInt z)
    | None => Raise ZeroDivisionError
    end.
Proof.
  induction 1 as [z|operand _ IH|l op r _ IHl _ IHr Hop]; simpl; [done|..].
  - rewrite IH. by destruct (exact operand).
  - rewrite IHl, IHr.
    destruct (exact l) as [a|]; simpl; [|done].
    destruct (exact r) as [b|]; simpl; [|done].
    destruct op; try done; simpl; unfold op_floordiv, op_mod, arith; simpl;
      by destruct (b =? 0)%Z.
Qed.

(** X15.  On an expression of integer literals, unary minus and the
    operators [+ - * // %] the evaluator computes exact integer arithmetic:
    it returns the integer value, or raises [ZeroDivisionError] when a divisor
    is zero, and the checker accepts exactly the decimal numeral of the
    value.  No float and no rounding are involved.  The value is taken
    below 10^4300 in magnitude, the default bound up to which [str] of an
    [int] returns in every CPython the model covers. *)
Theorem check_numeric_calc_exact (code expected : string) (body : expr) :
  ast_parse code = Ok (Expression body) → IntTree body →
  (∀ z, exact body = Some z → (Z.abs z < 10 ^ 4300)%Z) →
  eval_expr str_format body
  = match exact body with
    | Some z => Ok (VInt z)
    | None => Raise ZeroDivisionError
    end ∧
  (check_numeric_calc ast_parse str_format code expected = true ↔
   ∃ z, exact body = Some z ∧ expected = pretty z).
Proof.
  intros Hparse Htree _. split; [by apply eval_expr_exact|].
  unfold check_numeric_calc, check_parsed. rewrite Hparse. simpl.
  rewrite (eval_expr_exact body Htree).
  destruct (exact body) as [z|].
  - simpl. rewrite bool_decide_eq_true. split; [intros <-; by exists z|].
    by intros (? & [= <-] & ->).
  - split; [done|]. by intros (? & ? & _).
Qed.

End trees.

#[local] Existing Instance NumericFacts.no_float.

(** The tree of the text "7//2*-3%5". *)
Definition floor_times_minus : expr (F:=Empty_set) :=
  BinOp (BinOp (BinOp (Constant (VInt 7)) FloorDiv (Constant (VInt 2))) Mult
               (UnaryOp USub (Constant (VInt 3))))
        Mod (Constant (VInt 5)).

Definition parse_more (code : string) : res (tree (F:=Empty_set)) :=
  if String.eqb code "7//2*-3%5" then Ok (Expression floor_times_minus)
  else NumericFacts.parse_known code.

Lemma check_numeric_calc_fails_closed_witness :
  ∃ body, NumericFacts.parse_known "2+2" = Ok (Expression body) ∧
          arithmetic_only body = true.
Proof.
  apply (check_numeric_calc_fails_closed NumericFacts.parse_known
           NumericFacts.no_format "2+2" "4").
  reflexivity.
Defined.

Lemma check_numeric_calc_exact_witness :
  eval_expr NumericFacts.no_format floor_times_minus
  = match exact floor_times_minus with
    | Some z => Ok (VInt z)
    | None => Raise ZeroDivisionError
    end ∧
  (check_numeric_calc parse_more NumericFacts.no_format "7//2*-3%5" "1" = true ↔
   ∃ z, exact floor_times_minus = Some z ∧ "1" = pretty z).
Proof.
  apply (check_numeric_calc_exact parse_more NumericFacts.no_format
           "7//2*-3%5" "1" floor_times_minus).
  - reflexivity.
  - repeat constructor.
  - intros z [= <-]. vm_compute. reflexivity.
Defined.

(** (7 // 2) * -3 is -9, and -9 % 5 is 1. *)
Lemma floor_times_minus_value :
  exact floor_times_minus = Some 1%Z ∧
  check_numeric_calc parse_more NumericFacts.no_format "7//2*-3%5" "1" = true.
Proof. by vm_compute. Qed.

End NumericExtras.

(** ** The list of violations *)

Module ValidateExtras.
Import Schema Reach Valid.
Local Open Scope string_scope.

Lemma size_node_ids g :
  size (node_ids g) ≠ List.length (nodes g) ↔ ¬ NoDup (map Node.id (nodes g)).
Proof.
  unfold node_ids. rewrite <-(length_map Node.id (nodes g)). split.
  - intros Hne Hnd. by apply Hne, size_list_to_set.
  - intros Hdup Hsz. by apply Hdup, size_list_to_set_NoDup.
Qed.

Lemma elem_of_edge_errors g e msg :
  msg ∈ edge_errors (node_ids g) e ↔
  ((Edge.source e ∉ map Node.id (nodes g)) ∧
   msg = "Edge source " ++ Edge.source e ++ " does not exist") ∨
  ((Edge.target e ∉ map Node.id (nodes g)) ∧
   msg = "Edge target " ++ Edge.target e ++ " does not exist").
Proof.
  unfold edge_errors, node_ids. cbv zeta. rewrite elem_of_app.
  case_bool_decide as Hs; case_bool_decide as Ht;
    rewrite ?elem_of_list_to_set in *;
    rewrite ?list_elem_of_singleton, ?elem_of_nil; tauto.
Qed.

(** X4.  When [validate_graph] returns, its list holds exactly these
    violations and no other: the duplicate-id message when an id occurs
    twice, one message for every edge end that is the id of no node, and
    the reachability message when some final claim is not reachable. *)
Theorem validate_graph_errors (g : EvidenceGraph) (errors : list string)
    (msg : string) :
  validate_graph g = Ok errors →
  msg ∈ errors ↔
    (msg = "Duplicate node identifiers found" ∧
     ¬ NoDup (map Node.id (nodes g))) ∨
    (∃ e, e ∈ edges g ∧ (Edge.source e ∉ map Node.id (nodes g)) ∧
          msg = "Edge source " ++ Edge.source e ++ " does not exist") ∨
    (∃ e, e ∈ edges g ∧ (Edge.target e ∉ map Node.id (nodes g)) ∧
          msg = "Edge target " ++ Edge.target e ++ " does not exist") ∨
    (msg = "Final claims are not reachable from evidence or calc nodes" ∧
     ¬ MinimalityFacts.Connected g).
Proof.
  unfold validate_graph. cbv zeta.
  destruct (validate_connectivity g) as [connected|] eqn:Hc; [|done]. simpl.
  apply validate_connectivity_spec in Hc. fold (MinimalityFacts.Connected g) in Hc.
  intros [= <-].
  assert (msg ∈ (if bool_decide (size (node_ids g) ≠ List.length (nodes g))
                 then ["Duplicate node identifiers found"] else []) ↔
          msg = "Duplicate node identifiers found" ∧
          ¬ NoDup (map Node.id (nodes g))) as Hdup.
  { rewrite <-size_node_ids. case_bool_decide.
    - rewrite list_elem_of_singleton. tauto.
    - rewrite elem_of_nil. tauto. }
  assert (msg ∈ flat_map (edge_errors (node_ids g)) (edges g) ↔
          (∃ e, e ∈ edges g ∧ (Edge.source e ∉ map Node.id (nodes g)) ∧
                msg = "Edge source " ++ Edge.source e ++ " does not exist") ∨
          (∃ e, e ∈ edges g ∧ (Edge.target e ∉ map Node.id (nodes g)) ∧
                msg = "Edge target " ++ Edge.target e ++ " does not exist"))
    as Hends.
  { rewrite list_elem_of_In, in_flat_map.
    setoid_rewrite <-list_elem_of_In. setoid_rewrite elem_of_edge_errors.
    split.
    - intros (e & He & [[? ?]|[? ?]]); [left|right]; by exists e.
    - intros [(e & ? & ? & ?)|(e & ? & ? & ?)]; exists e; tauto. }
  destruct connected.
  - rewrite elem_of_app, Hdup, Hends.
    assert (MinimalityFacts.Connected g) by (by apply Hc). tauto.
  - rewrite !elem_of_app, Hdup, Hends, list_elem_of_singleton.
    assert (¬ MinimalityFacts.Connected g) by (by intros ?%Hc). tauto.
Qed.

(** Two nodes share the id e1, a refutes edge comes from an id that no
    node has, and the claim is backed by nothing. *)
Definition twin_lost : EvidenceGraph :=
  mkGraph [ MinimalityFacts.evidence_node "e1" "Earth is round";
            MinimalityFacts.evidence_node "e1" "The Earth is round";
            MinimalityFacts.claim_node "c1" "Earth is round" ]
          [ Edge.mk "ghost" "c1" "refutes" ].

Lemma validate_graph_errors_witness :
  "Edge source ghost does not exist"
    ∈ [ "Duplicate node identifiers found";
        "Edge source ghost does not exist";
        "Final claims are not reachable from evidence or calc nodes" ] ↔
    ("Edge source ghost does not exist" = "Duplicate node identifiers found" ∧
     ¬ NoDup (map Node.id (nodes twin_lost))) ∨
    (∃ e, e ∈ edges twin_lost ∧ (Edge.source e ∉ map Node.id (nodes twin_lost)) ∧
          "Edge source ghost does not exist"
          = "Edge source " ++ Edge.source e ++ " does not exist") ∨
    (∃ e, e ∈ edges twin_lost ∧ (Edge.target e ∉ map Node.id (nodes twin_lost)) ∧
          "Edge source ghost does not exist"
          = "Edge target " ++ Edge.target e ++ " does not exist") ∨
    ("Edge source ghost does not exist"
     = "Final claims are not reachable from evidence or calc nodes" ∧
     ¬ MinimalityFacts.Connected twin_lost).
Proof.
  apply (validate_graph_errors twin_lost _ "Edge source ghost does not exist").
  vm_compute. reflexivity.
Defined.

End ValidateExtras.

(** ** Lookup by id *)

Module NodeMapFacts.
Import Schema.
Local Open Scope string_scope.

Lemma foldl_node_map_snoc (m : gmap string Node.t) ns n :
  foldl (λ m n, <[Node.id n := n]> m) m (ns ++ [n])
  = <[Node.id n := n]> (foldl (λ m n, <[Node.id n := n]> m) m ns).
Proof. by rewrite foldl_app. Qed.

(** X5.  [get_node] returns the last node of the list that carries the
    id, and [None] exactly when no node carries it: in the dictionary that
    [node_map] builds a later node replaces an earlier one with the same
    id. *)
Theorem get_node_last (g : EvidenceGraph) (node_id : string) :
  get_node g node_id = last (filter (λ n, Node.id n = node_id) (nodes g)).
Proof.
  unfold get_node, node_map.
  induction (nodes g) as [|n ns IH] using rev_ind; [done|].
  rewrite foldl_node_map_snoc, filter_app, filter_cons, filter_nil.
  destruct (decide (Node.id n = node_id)) as [<-|Hne].
  - by rewrite lookup_insert_eq, last_snoc.
  - by rewrite lookup_insert_ne, app_nil_r.
Qed.

End NodeMapFacts.

(** ** More on minimality *)

Module MinimalityExtras.
Import Schema Minimality.
Local Open Scope string_scope.

Lemma removable_from_sublist g i es r :
  removable_from g i es = Ok r → r `sublist_of` map describe es.
Proof.
  revert i r. induction es as [|e es IH]; intros i r; simpl.
  { by intros [= <-]. }
  destruct (validate_connectivity (_graph_without_edge g i)) as [b|]; [|done].
  simpl. destruct (removable_from g (S i) es) as [r'|] eqn:Hr; [|done].
  simpl. intros [= <-]. specialize (IH (S i) r' Hr).
  destruct (b && _); [by apply sublist_skip|by apply sublist_cons].
Qed.

(** X13.  Whatever the graph, when [check_minimality] returns, the
    removable list is a sub-list of the edge descriptors in edge order, and
    the graph is reported minimal exactly when it has an edge and that list
    is empty. *)
Theorem check_minimality_shape (g : EvidenceGraph) (is_minimal : bool)
    (removable : list string) :
  check_minimality g = Ok (is_minimal, removable) →
  removable `sublist_of` map describe (edges g) ∧
  (is_minimal = true ↔ edges g ≠ [] ∧ removable = []).
Proof.
  unfold check_minimality.
  destruct (edges g) as [|e es] eqn:He.
  { intros [= <- <-]. split; [done|]. split; [done|]. by intros [? _]. }
  rewrite <-He.
  destruct (removable_from g 0 (edges g)) as [r|] eqn:Hr; [|done].
  simpl. intros [= <- <-]. split; [apply (removable_from_sublist g 0 _ _ Hr)|].
  rewrite bool_decide_eq_true, He. split; [|by intros [_ ->]].
  intros Hlen. split; [done|]. by destruct r.
Qed.

Lemma check_minimality_shape_witness :
  ["e2->c1"] `sublist_of` map describe (edges MinimalityFacts.disputed) ∧
  (false = true ↔ edges MinimalityFacts.disputed ≠ [] ∧ ["e2->c1"] = []).
Proof.
  apply (check_minimality_shape MinimalityFacts.disputed false ["e2->c1"]).
  vm_compute. reflexivity.
Defined.

End MinimalityExtras.
